(** * IpUtils: validation, expansion and reversal of textual IP addresses

    A shallow embedding of [backend/src/utils/IpUtils.ts] and the properties
    of its functions.

    - [JS]: the string and array primitives the file calls
      ([startsWith], [includes], [substring], [split], [join], [reverse],
      [padStart], [trim], [Array(n).fill]), on strings as sequences of
      UTF-16 code units.
    - [Regex]: the pattern language of the two validators, the
      continuation-passing matcher of the language specification, its
      denotation as a set of words, and two syntactic analyses.
    - [IpUtils]: the functions of the file, in the order of the file. *)

From Stdlib Require Import Ascii String.
From Stdlib Require Import List NArith ZArith Lia Bool.
Import ListNotations.
Open Scope string_scope.
Open Scope list_scope.

(** A string is its sequence of code units; a code unit is a number. *)
Abbreviation char := N (only parsing).
Abbreviation jsstring := (list N) (only parsing).

(** The code units of a literal. *)
Definition str (s : string) : jsstring :=
  map N_of_ascii (list_ascii_of_string s).

(** Exceptions: [throw new Error(msg)], and the [RangeError] that
    [Array(n)] raises on a negative length. *)
Inductive error : Type :=
| Error (message : string)
| RangeError (message : string).

Inductive result (A : Type) : Type :=
| Ok (value : A)
| Throw (e : error).
Arguments Ok {A} value.
Arguments Throw {A} e.

Definition bind {A B} (r : result A) (f : A -> result B) : result B :=
  match r with
  | Ok a => f a
  | Throw e => Throw e
  end.

(* ------------------------------------------------------------------ *)
(** ** String and array primitives *)

Module JS.

Definition colon : char := 58%N.
Definition dot : char := 46%N.
Definition comma : char := 44%N.
Definition zero : char := 48%N.

(** [s.startsWith(p)] *)
Fixpoint startsWith (s p : jsstring) {struct p} : bool :=
  match p, s with
  | [], _ => true
  | _ :: _, [] => false
  | a :: p', b :: s' => N.eqb a b && startsWith s' p'
  end.

(** [s.includes(p)] *)
Fixpoint includes (s p : jsstring) : bool :=
  startsWith s p ||
  match s with
  | [] => false
  | _ :: s' => includes s' p
  end.

(** [s.substring(n)] for [0 <= n]. *)
Definition substring (s : jsstring) (n : nat) : jsstring := skipn n s.

(** [parts.join(sep)] *)
Fixpoint join (sep : jsstring) (parts : list jsstring) : jsstring :=
  match parts with
  | [] => []
  | [p] => p
  | p :: ps => p ++ sep ++ join sep ps
  end.

(** The scan of [s.split(sep)] for a non-empty [sep]: the piece that is
    open at this position and the pieces after it.  [skip] counts the
    code units of a matched separator still to be passed over. *)
Fixpoint split_scan (sep : jsstring) (skip : nat) (s : jsstring)
  : jsstring * list jsstring :=
  match s with
  | [] => ([], [])
  | c :: s' =>
      match skip with
      | S k => split_scan sep k s'
      | O =>
          if startsWith s sep
          then ([], let (p, ps) := split_scan sep (length sep - 1) s' in p :: ps)
          else let (p, ps) := split_scan sep 0 s' in (c :: p, ps)
      end
  end.

(** [s.split(sep)]: the pieces between the occurrences of [sep], found
    left to right without overlap; with the empty separator, the code
    units one by one. *)
Definition split (s sep : jsstring) : list jsstring :=
  match sep with
  | [] => map (fun c => [c]) s
  | _ :: _ => let (p, ps) := split_scan sep 0 s in p :: ps
  end.

(** [s.padStart(n, pad)] *)
Definition padStart (s : jsstring) (n : nat) (pad : jsstring) : jsstring :=
  let fillLen := n - length s in
  match pad with
  | [] => s
  | _ :: _ => firstn fillLen (concat (repeat pad fillLen)) ++ s
  end.

(** White space and line terminators, the code units [trim] removes. *)
Definition isWhiteSpace (c : char) : bool :=
  existsb (N.eqb c)
    [9; 10; 11; 12; 13; 32; 160; 5760; 8232; 8233; 8239; 8287; 12288; 65279]%N
  || (8192 <=? c)%N && (c <=? 8202)%N.

Fixpoint trimStart (s : jsstring) : jsstring :=
  match s with
  | [] => []
  | c :: s' => if isWhiteSpace c then trimStart s' else s
  end.

(** [s.trim()] *)
Definition trim (s : jsstring) : jsstring :=
  rev (trimStart (rev (trimStart s))).

(** [Array(n).fill(v)]: [n] copies of [v]; a negative [n] is a
    [RangeError]. *)
Definition Array_fill {A} (n : Z) (v : A) : result (list A) :=
  if (n <? 0)%Z then Throw (RangeError "Invalid array length")
  else Ok (repeat v (Z.to_nat n)).

(** Truthiness of a value that is a string or [undefined]. *)
Definition truthy (v : option jsstring) : bool :=
  match v with
  | Some (_ :: _) => true
  | _ => false
  end.

(** [a || b] *)
Definition or_else (a b : option jsstring) : option jsstring :=
  if truthy a then a else b.

End JS.

(* ------------------------------------------------------------------ *)
(** ** Patterns *)

Module Regex.

(** The patterns of the file use character classes, sequence,
    alternation and counted repetition ([?] is [{0,1}], [{1,}] has no
    upper bound). *)
Inductive regex : Type :=
| Eps
| Chars (ranges : list (N * N))
| Seq (r1 r2 : regex)
| Alt (r1 r2 : regex)
| Rep (lo : nat) (hi : option nat) (r : regex).

Definition in_class (c : char) (ranges : list (N * N)) : bool :=
  existsb (fun '(lo, hi) => (lo <=? c)%N && (c <=? hi)%N) ranges.

(** Repetition of a matcher [body] between [lo] and [hi] times, then the
    continuation. *)
Fixpoint rep_match (body : jsstring -> (jsstring -> bool) -> bool)
    (lo hi : nat) (s : jsstring) (k : jsstring -> bool) {struct hi} : bool :=
  match hi with
  | O => match lo with O => k s | S _ => false end
  | S hi' =>
      body s (fun s' => rep_match body (pred lo) hi' s' k)
      || match lo with O => k s | S _ => false end
  end.

(** The backtracking matcher: [rmatch r s k] holds when [r] matches a
    prefix of [s] and the continuation [k] accepts the rest.  After its
    mandatory iterations an unbounded repetition gains nothing from an
    iteration that consumes no input, so [length s] further iterations
    cover all of them. *)
Fixpoint rmatch (r : regex) (s : jsstring) (k : jsstring -> bool) : bool :=
  match r with
  | Eps => k s
  | Chars cs =>
      match s with
      | c :: s' => in_class c cs && k s'
      | [] => false
      end
  | Seq r1 r2 => rmatch r1 s (fun s' => rmatch r2 s' k)
  | Alt r1 r2 => rmatch r1 s k || rmatch r2 s k
  | Rep lo hi r' =>
      rep_match (rmatch r') lo
        (match hi with Some h => h | None => lo + length s end) s k
  end.

Definition at_end (s : jsstring) : bool :=
  match s with [] => true | _ :: _ => false end.

(** [/^(r)$/.test(s)]: without the multiline flag [^] holds at the start
    of the input only and [$] at its end only. *)
Definition test (r : regex) (s : jsstring) : bool := rmatch r s at_end.

(** The words of a pattern. *)
Fixpoint iter (P : jsstring -> Prop) (n : nat) (s : jsstring) : Prop :=
  match n with
  | O => s = []
  | S n' => exists s1 s2, s = s1 ++ s2 /\ P s1 /\ iter P n' s2
  end.

Definition within (n : nat) (hi : option nat) : Prop :=
  match hi with Some h => n <= h | None => True end.

Fixpoint L (r : regex) (s : jsstring) : Prop :=
  match r with
  | Eps => s = []
  | Chars cs => exists c, s = [c] /\ in_class c cs = true
  | Seq r1 r2 => exists s1 s2, s = s1 ++ s2 /\ L r1 s1 /\ L r2 s2
  | Alt r1 r2 => L r1 s \/ L r2 s
  | Rep lo hi r' => exists n, lo <= n /\ within n hi /\ iter (L r') n s
  end.

(** Literals and classes, written with the characters of the source. *)
Definition rng (a b : ascii) : N * N := (N_of_ascii a, N_of_ascii b).
Definition chr (a : ascii) : regex := Chars [rng a a].
Fixpoint lit (s : string) : regex :=
  match s with
  | EmptyString => Eps
  | String a EmptyString => chr a
  | String a s' => Seq (chr a) (lit s')
  end.
Fixpoint seq (rs : list regex) : regex :=
  match rs with
  | [] => Eps
  | [r] => r
  | r :: rs' => Seq r (seq rs')
  end.
Fixpoint alt (r : regex) (rs : list regex) : regex :=
  match rs with
  | [] => r
  | r' :: rs' => Alt r (alt r' rs')
  end.
Definition opt (r : regex) : regex := Rep 0 (Some 1) r.
Definition rep (lo hi : nat) (r : regex) : regex := Rep lo (Some hi) r.

(** Number of occurrences of a code unit. *)
Definition occ (c : char) (s : jsstring) : nat :=
  length (filter (N.eqb c) s).

(** A lower bound on the occurrences of [c] in every word of [r]. *)
Fixpoint min_occ (c : char) (r : regex) : nat :=
  match r with
  | Eps => 0
  | Chars cs => if forallb (fun '(lo, hi) => N.eqb lo c && N.eqb hi c) cs then 1 else 0
  | Seq r1 r2 => min_occ c r1 + min_occ c r2
  | Alt r1 r2 => Nat.min (min_occ c r1) (min_occ c r2)
  | Rep lo _ r' => lo * min_occ c r'
  end.

(** An upper bound on them, when there is one. *)
Fixpoint max_occ (c : char) (r : regex) : option nat :=
  match r with
  | Eps => Some 0
  | Chars cs => Some (if in_class c cs then 1 else 0)
  | Seq r1 r2 =>
      match max_occ c r1, max_occ c r2 with
      | Some a, Some b => Some (a + b)
      | _, _ => None
      end
  | Alt r1 r2 =>
      match max_occ c r1, max_occ c r2 with
      | Some a, Some b => Some (Nat.max a b)
      | _, _ => None
      end
  | Rep _ hi r' =>
      match max_occ c r', hi with
      | Some 0, _ => Some 0
      | Some a, Some h => Some (h * a)
      | _, _ => None
      end
  end.

End Regex.

(* ------------------------------------------------------------------ *)
(** ** The functions of [IpUtils.ts] *)

Module IpUtils.
Import Regex.

(** [(25[0-5]|2[0-4][0-9]|[01]?[0-9][0-9]?)] *)
Definition octet : regex :=
  alt (seq [lit "25"; Chars [rng "0" "5"]])
    [ seq [chr "2"; Chars [rng "0" "4"]; Chars [rng "0" "9"]];
      seq [opt (Chars [rng "0" "1"]); Chars [rng "0" "9"]; opt (Chars [rng "0" "9"])] ].

(** The body of [ipv4Regex], between [^] and [$]. *)
Definition ipv4Regex : regex :=
  seq [octet; chr "."; octet; chr "."; octet; chr "."; octet].

Definition isValidIPv4 (ip : jsstring) : bool := test ipv4Regex ip.

(** [[0-9a-fA-F]] *)
Definition hex : regex := Chars [rng "0" "9"; rng "a" "f"; rng "A" "F"].
(** [[0-9a-fA-F]{1,4}] *)
Definition h16 : regex := rep 1 4 hex.
(** [([0-9a-fA-F]{1,4}:)] and [(:[0-9a-fA-F]{1,4})] *)
Definition h16_colon : regex := Seq h16 (chr ":").
Definition colon_h16 : regex := Seq (chr ":") h16.
(** [(25[0-5]|(2[0-4]|1{0,1}[0-9]){0,1}[0-9])] *)
Definition dec_octet : regex :=
  Alt (seq [lit "25"; Chars [rng "0" "5"]])
      (Seq (rep 0 1 (Alt (Seq (chr "2") (Chars [rng "0" "4"]))
                         (Seq (rep 0 1 (chr "1")) (Chars [rng "0" "9"]))))
           (Chars [rng "0" "9"])).
(** [((25[0-5]|...)\.){3,3}(25[0-5]|...)] *)
Definition dotted_quad : regex :=
  Seq (rep 3 3 (Seq dec_octet (chr "."))) dec_octet.

(** The body of [ipv6Regex], between [^(] and [)$]: its twelve
    alternatives in the order of the source. *)
Definition ipv6Regex : regex :=
  alt (Seq (rep 7 7 h16_colon) h16)
    [ Seq (rep 1 7 h16_colon) (chr ":");
      Seq (rep 1 6 h16_colon) colon_h16;
      Seq (rep 1 5 h16_colon) (rep 1 2 colon_h16);
      Seq (rep 1 4 h16_colon) (rep 1 3 colon_h16);
      Seq (rep 1 3 h16_colon) (rep 1 4 colon_h16);
      Seq (rep 1 2 h16_colon) (rep 1 5 colon_h16);
      Seq h16_colon (rep 1 6 colon_h16);
      Seq (chr ":") (Alt (rep 1 7 colon_h16) (chr ":"));
      seq [lit "fe80:"; rep 0 4 (Seq (chr ":") (rep 0 4 hex)); chr "%";
           Rep 1 None (Chars [rng "0" "9"; rng "a" "z"; rng "A" "Z"])];
      seq [lit "::";
           rep 0 1 (seq [lit "ffff"; rep 0 1 (Seq (chr ":") (rep 1 4 (chr "0"))); chr ":"]);
           dotted_quad];
      seq [rep 1 4 h16_colon; chr ":"; dotted_quad] ].

Definition isValidIPv6 (ip : jsstring) : bool := test ipv6Regex ip.

Definition isValidIP (ip : jsstring) : bool :=
  isValidIPv4 ip || isValidIPv6 ip.

Definition reverseIPv4 (ip : jsstring) : result jsstring :=
  if negb (isValidIPv4 ip) then Throw (Error "Invalid IPv4 address")
  else Ok (JS.join (str ".") (rev (JS.split ip (str ".")))).

(** [parts[i] ? parts[i].split(':') : []] *)
Definition groups_of (part : option jsstring) : list jsstring :=
  match part with
  | Some ((_ :: _) as p) => JS.split p (str ":")
  | _ => []
  end.

Definition expandIPv6 (ip : jsstring) : result jsstring :=
  bind
    (if JS.includes ip (str "::") then
       let parts := JS.split ip (str "::") in
       let leftPart := groups_of (nth_error parts 0) in
       let rightPart := groups_of (nth_error parts 1) in
       let totalGroups := 8%Z in
       let missingGroups :=
         (totalGroups - Z.of_nat (length leftPart) - Z.of_nat (length rightPart))%Z in
       bind (JS.Array_fill missingGroups (str "0000")) (fun zeroGroups =>
       let fullParts := leftPart ++ zeroGroups ++ rightPart in
       Ok (JS.join (str ":") fullParts))
     else Ok ip)
    (fun ip =>
       Ok (JS.join (str ":")
             (map (fun group => JS.padStart group 4 (str "0"))
                  (JS.split ip (str ":"))))).

Definition reverseIPv6 (ip : jsstring) : result jsstring :=
  if negb (isValidIPv6 ip) then Throw (Error "Invalid IPv6 address")
  else
    bind (expandIPv6 ip) (fun expandedIP =>
    Ok (JS.join (str ":") (rev (JS.split expandedIP (str ":"))))).

Definition reverseIP (ip : jsstring) : result jsstring :=
  if isValidIPv4 ip then reverseIPv4 ip
  else if isValidIPv6 ip then reverseIPv6 ip
  else Throw (Error "Invalid IP address format").

(** What [extractClientIP] reads of the request: two headers, and the
    remote address of the connection and of the socket, each of which
    may be missing. *)
Record Headers : Type := {
  x_forwarded_for : option jsstring;
  x_real_ip : option jsstring
}.
Record Socket : Type := { remoteAddress : option jsstring }.
Record Request : Type := {
  headers : Headers;
  connection : option Socket;
  socket : option Socket
}.

(** [o?.remoteAddress] *)
Definition remoteAddress_of (o : option Socket) : option jsstring :=
  match o with
  | Some s => remoteAddress s
  | None => None
  end.

(** The string of a value known to be one. *)
Definition the (v : option jsstring) : jsstring :=
  match v with Some s => s | None => [] end.

(** [req.connection?.remoteAddress || req.socket?.remoteAddress] *)
Definition connectionAddress (req : Request) : option jsstring :=
  JS.or_else (remoteAddress_of (connection req)) (remoteAddress_of (socket req)).

Definition extractClientIP (req : Request) : jsstring :=
  let forwarded := x_forwarded_for (headers req) in
  let realIP := x_real_ip (headers req) in
  let clientIP := connectionAddress req in
  if JS.truthy forwarded then
    JS.trim (hd [] (JS.split (the forwarded) (str ",")))
  else if JS.truthy realIP then
    the realIP
  else if JS.truthy clientIP && JS.startsWith (the clientIP) (str "::ffff:") then
    JS.substring (the clientIP) 7
  else
    the (JS.or_else clientIP (Some (str "unknown"))).

Definition normalizeIP (ip : jsstring) : jsstring :=
  if JS.startsWith ip (str "::ffff:") then JS.substring ip 7 else ip.

End IpUtils.

(* ------------------------------------------------------------------ *)
(** ** The matcher decides membership *)

Module RegexFacts.
Import Regex.

Section Repetition.
Variable body : jsstring -> (jsstring -> bool) -> bool.
Variable P : jsstring -> Prop.
Hypothesis body_spec : forall s k,
  body s k = true <-> exists s1 s2, s = s1 ++ s2 /\ P s1 /\ k s2 = true.

Lemma rep_match_spec hi : forall lo s k,
  rep_match body lo hi s k = true <->
  exists n s1 s2, lo <= n <= hi /\ s = s1 ++ s2 /\ iter P n s1 /\ k s2 = true.
Proof.
  induction hi as [|hi IH]; intros lo s k; cbn [rep_match].
  - destruct lo; split.
    + intros Hk. exists 0, [], s. cbn. auto with arith.
    + intros (n & s1 & s2 & Hn & -> & Hi & Hk).
      assert (n = 0) by lia. subst n. cbn in Hi. subst s1. exact Hk.
    + discriminate.
    + intros (n & _ & _ & Hn & _). lia.
  - rewrite orb_true_iff, body_spec. split.
    + intros [(s1 & s2 & -> & Hp & Hr) | Hk].
      * apply IH in Hr. destruct Hr as (n & t1 & t2 & Hn & -> & Hi & Hk).
        exists (S n), (s1 ++ t1), t2. repeat split; try lia.
        -- now rewrite app_assoc.
        -- cbn. exists s1, t1. auto.
        -- exact Hk.
      * destruct lo; [|discriminate].
        exists 0, [], s. cbn. repeat split; auto; lia.
    + intros (n & s1 & s2 & Hn & -> & Hi & Hk).
      destruct n as [|n].
      * cbn in Hi. subst s1. right. destruct lo; [exact Hk | lia].
      * cbn in Hi. destruct Hi as (a & b & -> & Hp & Hi).
        left. exists a, (b ++ s2). repeat split; auto.
        -- now rewrite app_assoc.
        -- apply IH. exists n, b, s2. repeat split; auto; lia.
Qed.

(** Among more iterations than code units one is empty and can go. *)
Lemma iter_drop n : forall s, iter P (S n) s -> length s <= n -> iter P n s.
Proof.
  induction n as [|n IH]; intros s Hi Hlen.
  - destruct s; [reflexivity | cbn in Hlen; lia].
  - destruct Hi as (a & b & -> & Hp & Hi).
    destruct a as [|x a].
    + exact Hi.
    + exists (x :: a), b. repeat split; auto.
      apply IH; [exact Hi|]. rewrite length_app in Hlen. cbn in Hlen. lia.
Qed.

Lemma iter_shrink lo d : forall s,
  iter P (lo + length s + d) s -> iter P (lo + length s) s.
Proof.
  induction d as [|d IH]; intros s Hi.
  - now rewrite Nat.add_0_r in Hi.
  - apply IH. apply iter_drop; [|lia].
    now replace (S (lo + length s + d)) with (lo + length s + S d) by lia.
Qed.

End Repetition.

Lemma rmatch_spec r : forall s k,
  rmatch r s k = true <->
  exists s1 s2, s = s1 ++ s2 /\ L r s1 /\ k s2 = true.
Proof.
  induction r as [|cs|r1 IH1 r2 IH2|r1 IH1 r2 IH2|lo hi r IH]; intros s k; cbn [rmatch L].
  - split.
    + intros Hk. exists [], s. auto.
    + intros (s1 & s2 & -> & -> & Hk). exact Hk.
  - split.
    + destruct s as [|c s]; [discriminate|].
      rewrite andb_true_iff. intros [Hc Hk].
      exists [c], s. repeat split; eauto.
    + intros (s1 & s2 & -> & (c & -> & Hc) & Hk). cbn. now rewrite Hc.
  - rewrite IH1. split.
    + intros (s1 & s2 & -> & H1 & H2). apply IH2 in H2.
      destruct H2 as (t1 & t2 & -> & H2 & Hk).
      exists (s1 ++ t1), t2. rewrite app_assoc. repeat split; auto.
      exists s1, t1. auto.
    + intros (s1 & s2 & -> & (a & b & -> & Ha & Hb) & Hk).
      exists a, (b ++ s2). rewrite app_assoc. repeat split; auto.
      apply IH2. exists b, s2. auto.
  - rewrite orb_true_iff, IH1, IH2. split.
    + intros [(s1 & s2 & ? & ? & ?) | (s1 & s2 & ? & ? & ?)]; exists s1, s2; auto.
    + intros (s1 & s2 & ? & [?|?] & ?); [left|right]; exists s1, s2; auto.
  - rewrite (rep_match_spec _ _ IH). split.
    + intros (n & s1 & s2 & Hn & -> & Hi & Hk).
      exists s1, s2. repeat split; auto.
      exists n. repeat split; auto; try lia.
      destruct hi; cbn; [lia | exact I].
    + intros (s1 & s2 & -> & (n & Hlo & Hhi & Hi) & Hk).
      destruct hi as [h|]; cbn in Hhi.
      * exists n, s1, s2. repeat split; auto.
      * destruct (Nat.le_gt_cases n (lo + length s1)) as [Hle|Hgt].
        -- exists n, s1, s2. rewrite length_app. repeat split; auto; lia.
        -- exists (lo + length s1), s1, s2. rewrite length_app.
           repeat split; auto; try lia.
           apply iter_shrink with (d := n - (lo + length s1)).
           now replace (lo + length s1 + (n - (lo + length s1))) with n by lia.
Qed.

(** [test] decides membership of the whole input. *)
Theorem test_spec r s : test r s = true <-> L r s.
Proof.
  unfold test. rewrite rmatch_spec. split.
  - intros (s1 & s2 & -> & H & Hk). destruct s2; [|discriminate].
    now rewrite app_nil_r.
  - intros H. exists s, []. rewrite app_nil_r. auto.
Qed.

(** *** Counting a code unit *)

Lemma occ_app c s t : occ c (s ++ t) = occ c s + occ c t.
Proof. unfold occ. now rewrite filter_app, length_app. Qed.

Lemma occ_cons c x s : occ c (x :: s) = (if N.eqb c x then 1 else 0) + occ c s.
Proof. unfold occ. cbn. destruct (N.eqb c x); reflexivity. Qed.

Lemma iter_occ_min c (P : jsstring -> Prop) a :
  (forall s, P s -> a <= occ c s) ->
  forall n s, iter P n s -> n * a <= occ c s.
Proof.
  intros HP. induction n as [|n IH]; intros s Hi; cbn in *.
  - lia.
  - destruct Hi as (s1 & s2 & -> & H1 & H2).
    rewrite occ_app. specialize (HP _ H1). specialize (IH _ H2). lia.
Qed.

Lemma iter_occ_max c (P : jsstring -> Prop) a :
  (forall s, P s -> occ c s <= a) ->
  forall n s, iter P n s -> occ c s <= n * a.
Proof.
  intros HP. induction n as [|n IH]; intros s Hi; cbn in *.
  - subst s. cbn. lia.
  - destruct Hi as (s1 & s2 & -> & H1 & H2).
    rewrite occ_app. specialize (HP _ H1). specialize (IH _ H2). lia.
Qed.

Lemma min_occ_sound c r : forall s, L r s -> min_occ c r <= occ c s.
Proof.
  induction r as [|cs|r1 IH1 r2 IH2|r1 IH1 r2 IH2|lo hi r IH]; intros s H; cbn in *.
  - lia.
  - destruct H as (x & -> & Hx).
    destruct (forallb _ cs) eqn:Hall; [|lia].
    unfold in_class in Hx. apply existsb_exists in Hx.
    destruct Hx as ([a b] & Hin & Hab).
    rewrite forallb_forall in Hall. specialize (Hall _ Hin). cbn in Hall.
    apply andb_true_iff in Hall, Hab.
    destruct Hall as [Ha Hb], Hab as [Hax Hxb].
    apply N.eqb_eq in Ha, Hb. apply N.leb_le in Hax, Hxb.
    assert (x = c) by lia. subst x.
    rewrite occ_cons, N.eqb_refl. lia.
  - destruct H as (s1 & s2 & -> & H1 & H2). rewrite occ_app.
    specialize (IH1 _ H1). specialize (IH2 _ H2). lia.
  - destruct H as [H|H]; [specialize (IH1 _ H) | specialize (IH2 _ H)]; lia.
  - destruct H as (n & Hlo & _ & Hi).
    pose proof (iter_occ_min c _ _ IH _ _ Hi). nia.
Qed.

Lemma max_occ_sound c r : forall m s, max_occ c r = Some m -> L r s -> occ c s <= m.
Proof.
  induction r as [|cs|r1 IH1 r2 IH2|r1 IH1 r2 IH2|lo hi r IH]; intros m s Hm H; cbn in *.
  - subst s. cbn. lia.
  - destruct H as (x & -> & Hx). injection Hm as <-.
    rewrite occ_cons. cbn. destruct (N.eqb c x) eqn:E; [|lia].
    apply N.eqb_eq in E. subst x. rewrite Hx. lia.
  - destruct H as (s1 & s2 & -> & H1 & H2). rewrite occ_app.
    destruct (max_occ c r1) as [a|]; [|discriminate].
    destruct (max_occ c r2) as [b|]; [|discriminate].
    injection Hm as <-.
    specialize (IH1 _ _ eq_refl H1). specialize (IH2 _ _ eq_refl H2). lia.
  - destruct (max_occ c r1) as [a|]; [|discriminate].
    destruct (max_occ c r2) as [b|]; [|discriminate].
    injection Hm as <-.
    destruct H as [H|H]; [specialize (IH1 _ _ eq_refl H) | specialize (IH2 _ _ eq_refl H)]; lia.
  - destruct H as (n & _ & Hhi & Hi).
    destruct (max_occ c r) as [a|]; [|discriminate].
    pose proof (iter_occ_max c _ a (fun t => IH _ t eq_refl) _ _ Hi) as Hocc.
    destruct a as [|a].
    + injection Hm as <-. lia.
    + destruct hi as [h|]; [|discriminate]. injection Hm as <-.
      cbn in Hhi. nia.
Qed.

End RegexFacts.

(* ------------------------------------------------------------------ *)
(** ** Facts about the string primitives *)

Module JSFacts.
Import JS.
Import Regex RegexFacts.

Lemma startsWith_app s p : startsWith s p = true -> s = p ++ skipn (length p) s.
Proof.
  revert s. induction p as [|a p IH]; intros s H; [reflexivity|].
  destruct s as [|b s]; [discriminate|].
  cbn in H. apply andb_true_iff in H. destruct H as [Hab H].
  apply N.eqb_eq in Hab. subst b. cbn. f_equal. now apply IH.
Qed.

Lemma startsWith_prefix p t : startsWith (p ++ t) p = true.
Proof.
  induction p as [|a p IH]; [reflexivity|].
  cbn. now rewrite N.eqb_refl, IH.
Qed.

(** Passing over [k] code units of a separator is dropping them. *)
Lemma split_scan_skip sep : forall s k,
  split_scan sep k s = split_scan sep 0 (skipn k s).
Proof.
  induction s as [|c s IH]; intros k.
  - now destruct k.
  - destruct k as [|k]; [reflexivity|]. cbn [split_scan skipn]. apply IH.
Qed.

(** The two steps of the scan, for a non-empty separator. *)
Lemma split_nil x sep : split [] (x :: sep) = [[]].
Proof. reflexivity. Qed.

Lemma split_match c s x sep :
  startsWith (c :: s) (x :: sep) = true ->
  split (c :: s) (x :: sep) = [] :: split (skipn (length sep) s) (x :: sep).
Proof.
  intros H. unfold split. cbn [split_scan]. rewrite H.
  cbn [length Nat.sub]. rewrite Nat.sub_0_r, split_scan_skip. reflexivity.
Qed.

Lemma split_step c s x sep :
  startsWith (c :: s) (x :: sep) = false ->
  split (c :: s) (x :: sep) =
  match split s (x :: sep) with
  | p :: ps => (c :: p) :: ps
  | [] => []
  end.
Proof.
  intros H. unfold split. cbn [split_scan]. rewrite H.
  now destruct (split_scan (x :: sep) 0 s).
Qed.

Lemma split_not_nil s x sep : split s (x :: sep) <> [].
Proof. unfold split. now destruct (split_scan (x :: sep) 0 s). Qed.

Lemma join_cons_head sep c p ps :
  join sep ((c :: p) :: ps) = c :: join sep (p :: ps).
Proof. now destruct ps. Qed.

Lemma join_cons sep p q ps : join sep (p :: q :: ps) = p ++ sep ++ join sep (q :: ps).
Proof. reflexivity. Qed.

(** [s.split(sep).join(sep)] is [s]. *)
Lemma join_split x sep : forall s, join (x :: sep) (split s (x :: sep)) = s.
Proof.
  intros s. remember (length s) as n eqn:Hn.
  revert s Hn. induction n as [n IH] using lt_wf_ind. intros s Hn.
  destruct s as [|c s]; [reflexivity|].
  destruct (startsWith (c :: s) (x :: sep)) eqn:E.
  - rewrite (split_match _ _ _ _ E).
    pose proof (split_not_nil (skipn (length sep) s) x sep) as Hne.
    destruct (split (skipn (length sep) s) (x :: sep)) as [|q qs] eqn:Eq;
      [congruence|].
    rewrite join_cons, <- Eq.
    rewrite (IH (length (skipn (length sep) s))); [| |reflexivity].
    + apply startsWith_app in E. cbn [length skipn app] in E |- *. now rewrite <- E.
    + subst n. rewrite length_skipn. cbn. lia.
  - rewrite (split_step _ _ _ _ E).
    pose proof (split_not_nil s x sep) as Hne.
    destruct (split s (x :: sep)) as [|q qs] eqn:Eq; [congruence|].
    rewrite join_cons_head, <- Eq. f_equal.
    apply (IH (length s)); [subst n; cbn; lia | reflexivity].
Qed.

(** An occurrence of the separator gives at least two pieces. *)
Lemma split_includes x sep : forall s,
  includes s (x :: sep) = true ->
  exists p q ps, split s (x :: sep) = p :: q :: ps.
Proof.
  induction s as [|c s IH]; intros H; [discriminate|].
  cbn [includes] in H.
  destruct (startsWith (c :: s) (x :: sep)) eqn:E.
  - rewrite (split_match _ _ _ _ E).
    pose proof (split_not_nil (skipn (length sep) s) x sep) as Hne.
    destruct (split (skipn (length sep) s) (x :: sep)) as [|q qs]; [congruence|].
    now exists [], q, qs.
  - rewrite (split_step _ _ _ _ E).
    destruct (IH H) as (p & q & ps & ->). now exists (c :: p), q, ps.
Qed.

(** *** Splitting on one code unit *)

Lemma split1_cons c x s :
  split (x :: s) [c] =
  if N.eqb c x then [] :: split s [c]
  else match split s [c] with
       | p :: ps => (x :: p) :: ps
       | [] => []
       end.
Proof.
  destruct (N.eqb c x) eqn:E.
  - rewrite split_match; [reflexivity|]. cbn. now rewrite E.
  - rewrite split_step; [reflexivity|]. cbn. now rewrite E.
Qed.

Lemma split1_app c p t :
  ~ In c p -> split (p ++ c :: t) [c] = p :: split t [c].
Proof.
  induction p as [|x p IH]; intros Hc.
  - cbn [app]. now rewrite split1_cons, N.eqb_refl.
  - cbn [app]. rewrite split1_cons.
    destruct (N.eqb c x) eqn:E.
    + apply N.eqb_eq in E. subst x. exfalso. apply Hc. now left.
    + rewrite IH; [reflexivity|]. intros Hin. apply Hc. now right.
Qed.

Lemma split1_none c p : ~ In c p -> split p [c] = [p].
Proof.
  induction p as [|x p IH]; intros Hc; [reflexivity|].
  rewrite split1_cons.
  destruct (N.eqb c x) eqn:E.
  - apply N.eqb_eq in E. subst x. exfalso. apply Hc. now left.
  - rewrite IH; [reflexivity|]. intros Hin. apply Hc. now right.
Qed.

(** Joining pieces free of the separator and splitting again gives the
    pieces back. *)
Lemma split_join1 c : forall ps,
  ps <> [] -> Forall (fun p => ~ In c p) ps -> split (join [c] ps) [c] = ps.
Proof.
  induction ps as [|p ps IH]; intros Hne Hall; [congruence|].
  inversion Hall as [|? ? Hp Hps]; subst.
  destruct ps as [|q ps].
  - cbn [join]. now apply split1_none.
  - rewrite join_cons. cbn [app]. rewrite split1_app by assumption.
    f_equal. apply IH; [discriminate | assumption].
Qed.

Lemma length_split1 c : forall s, length (split s [c]) = S (occ c s).
Proof.
  induction s as [|x s IH]; [reflexivity|].
  rewrite split1_cons, occ_cons.
  destruct (N.eqb c x).
  - cbn [length]. rewrite IH. reflexivity.
  - pose proof (split_not_nil s c []) as Hne.
    destruct (split s [c]) as [|p ps]; [congruence|].
    cbn [length] in *. lia.
Qed.

Lemma occ_join_head c sep p ps : occ c p <= occ c (join sep (p :: ps)).
Proof.
  destruct ps as [|q ps]; [cbn [join]; lia|].
  rewrite join_cons, occ_app. lia.
Qed.

(** *** No doubled separator between non-empty pieces *)

Lemma includes2_app c p t :
  ~ In c p -> includes (p ++ t) [c; c] = includes t [c; c].
Proof.
  induction p as [|x p IH]; intros Hc; [reflexivity|].
  cbn [app includes startsWith].
  destruct (N.eqb c x) eqn:E.
  - apply N.eqb_eq in E. subst x. exfalso. apply Hc. now left.
  - cbn [andb orb]. apply IH. intros Hin. apply Hc. now right.
Qed.

Lemma includes2_join c : forall ps,
  Forall (fun p => p <> [] /\ ~ In c p) ps -> includes (join [c] ps) [c; c] = false.
Proof.
  induction ps as [|p ps IH]; intros Hall; [reflexivity|].
  inversion Hall as [|? ? [Hne Hp] Hps]; subst.
  destruct ps as [|q ps].
  - cbn [join]. rewrite <- (app_nil_r p). now rewrite includes2_app.
  - rewrite join_cons, includes2_app by assumption.
    specialize (IH Hps).
    inversion Hps as [|? ? [Hqne Hq] _]; subst.
    destruct q as [|y q]; [congruence|].
    rewrite join_cons_head in *.
    assert (N.eqb c y = false) as Hcy.
    { apply N.eqb_neq. intros ->. apply Hq. now left. }
    cbn [app includes startsWith] in IH |- *.
    rewrite Hcy in *. rewrite N.eqb_refl. cbn [andb orb] in IH |- *. exact IH.
Qed.

(** *** Splitting on a doubled code unit *)

(** [p] added in front of the first piece. *)
Definition prepend (p : jsstring) (pieces : list jsstring) : list jsstring :=
  match pieces with
  | q :: qs => (p ++ q) :: qs
  | [] => []
  end.

Lemma prepend_app p q l : prepend p (prepend q l) = prepend (p ++ q) l.
Proof. destruct l; [reflexivity|]. cbn. now rewrite app_assoc. Qed.

Lemma prepend_nil x sep s : prepend [] (split s (x :: sep)) = split s (x :: sep).
Proof.
  pose proof (split_not_nil s x sep).
  now destruct (split s (x :: sep)).
Qed.

Lemma split2_step c x t :
  x <> c -> split (x :: t) [c; c] = prepend [x] (split t [c; c]).
Proof.
  intros Hx. rewrite split_step; [reflexivity|].
  cbn. apply N.eqb_neq in Hx. rewrite N.eqb_sym in Hx. now rewrite Hx.
Qed.

Lemma split2_single c x t :
  x <> c -> split (c :: x :: t) [c; c] = prepend [c] (split (x :: t) [c; c]).
Proof.
  intros Hx. rewrite split_step; [reflexivity|].
  cbn. apply N.eqb_neq in Hx. rewrite N.eqb_sym in Hx.
  now rewrite Hx, N.eqb_refl.
Qed.

Lemma split2_match c t : split (c :: c :: t) [c; c] = [] :: split t [c; c].
Proof.
  rewrite split_match; [reflexivity|]. cbn. now rewrite N.eqb_refl.
Qed.

Lemma split2_free c p t :
  ~ In c p -> split (p ++ t) [c; c] = prepend p (split t [c; c]).
Proof.
  induction p as [|x p IH]; intros Hc.
  - cbn [app]. now rewrite prepend_nil.
  - cbn [app]. rewrite split2_step.
    + rewrite IH, prepend_app; [reflexivity|]. intros Hin. apply Hc. now right.
    + intros ->. apply Hc. now left.
Qed.

(** No doubled separator starts inside joined non-empty pieces. *)
Lemma split2_join c : forall ps t,
  Forall (fun p => p <> [] /\ ~ In c p) ps ->
  split (join [c] ps ++ t) [c; c] = prepend (join [c] ps) (split t [c; c]).
Proof.
  induction ps as [|p ps IH]; intros t Hall.
  - cbn [join app]. now rewrite prepend_nil.
  - inversion Hall as [|? ? [Hne Hp] Hps]; subst.
    destruct ps as [|q ps].
    + cbn [join]. now apply split2_free.
    + rewrite join_cons, <- !app_assoc, split2_free by assumption.
      specialize (IH t Hps).
      inversion Hps as [|? ? [Hqne Hq] _]; subst.
      destruct q as [|y q]; [congruence|].
      rewrite join_cons_head in *. cbn [app] in IH |- *.
      rewrite split2_single, IH, !prepend_app;
        [now rewrite <- app_assoc|].
      intros ->. apply Hq. now left.
Qed.

Lemma split2_compressed c ls rs :
  Forall (fun p => p <> [] /\ ~ In c p) ls ->
  Forall (fun p => p <> [] /\ ~ In c p) rs ->
  split (join [c] ls ++ [c; c] ++ join [c] rs) [c; c] = [join [c] ls; join [c] rs].
Proof.
  intros Hl Hr. rewrite split2_join by assumption.
  cbn [app]. rewrite split2_match.
  rewrite <- (app_nil_r (join [c] rs)) at 1.
  rewrite split2_join by assumption.
  cbn. now rewrite !app_nil_r.
Qed.

Lemma includes_startsWith s p : startsWith s p = true -> includes s p = true.
Proof. intros H. destruct s; cbn [includes]; now rewrite H. Qed.

Lemma includes_middle p sep q : includes (p ++ sep ++ q) sep = true.
Proof.
  induction p as [|x p IH].
  - cbn [app]. apply includes_startsWith. apply startsWith_prefix.
  - cbn [app includes]. rewrite IH. apply orb_true_r.
Qed.

(** *** Padding *)

Lemma padStart_long s n pad : n <= length s -> padStart s n pad = s.
Proof.
  intros H. unfold padStart.
  replace (n - length s) with 0 by lia.
  now destruct pad.
Qed.

End JSFacts.

(* ------------------------------------------------------------------ *)
(** ** The words of the specification *)

Module Spec.

(** A decimal digit, and the number a digit string denotes. *)
Definition is_digit (c : char) : bool := (48 <=? c)%N && (c <=? 57)%N.

Definition decimal_value (o : jsstring) : N :=
  fold_left (fun acc c => 10 * acc + (c - 48))%N o 0%N.

(** A decimal octet: one to three digits whose value is at most 255. *)
Definition is_octet (o : jsstring) : bool :=
  (1 <=? length o)%nat && (length o <=? 3)%nat && forallb is_digit o
  && (decimal_value o <=? 255)%N.

(** A hexadecimal digit of either case. *)
Definition is_hex (c : char) : bool :=
  (48 <=? c)%N && (c <=? 57)%N
  || (97 <=? c)%N && (c <=? 102)%N
  || (65 <=? c)%N && (c <=? 70)%N.

(** A group of one to four hexadecimal digits, and a full group of
    exactly four. *)
Definition is_group (g : jsstring) : bool :=
  (1 <=? length g)%nat && (length g <=? 4)%nat && forallb is_hex g.

Definition is_group4 (g : jsstring) : bool :=
  (length g =? 4)%nat && forallb is_hex g.

Definition group_list (gs : list jsstring) : Prop :=
  Forall (fun g => is_group g = true) gs.

(** A group left-padded with ['0'] to four code units. *)
Definition pad4 (g : jsstring) : jsstring := JS.padStart g 4 (str "0").

(** The fully expanded form: eight full groups. *)
Definition is_expanded (gs : list jsstring) : bool :=
  (length gs =? 8)%nat && forallb is_group4 gs.

(** Non-overlapping occurrences of [p] in [s], left to right. *)
Definition occurrences (s p : jsstring) : nat := length (JS.split s p) - 1.

(** The part of [s] before the first [c]; all of [s] when there is
    none. *)
Fixpoint before (c : char) (s : jsstring) : jsstring :=
  match s with
  | [] => []
  | x :: s' => if N.eqb c x then [] else x :: before c s'
  end.

(** The [::ffff:] prefix rule. *)
Definition strip_mapped_prefix (a : jsstring) : jsstring :=
  if JS.startsWith a (str "::ffff:") then skipn 7 a else a.

(** The extraction rule in the words of the specification: a forwarded
    value counts when present and non-empty, the other two when
    present. *)
Definition extractClientAddress (forwarded realIP raw : option jsstring)
  : jsstring :=
  match forwarded with
  | Some ((_ :: _) as f) => JS.trim (before JS.comma f)
  | _ =>
      match realIP with
      | Some r => r
      | None =>
          match raw with
          | Some a => strip_mapped_prefix a
          | None => str "unknown"
          end
      end
  end.

End Spec.

(* ------------------------------------------------------------------ *)
(** ** Facts about the validators and the reversal *)

Module IpFacts.
Import JS Regex RegexFacts JSFacts IpUtils Spec.

Ltac bool_to_prop :=
  repeat rewrite ?orb_true_iff, ?andb_true_iff, ?N.leb_le, ?N.eqb_eq,
    ?Nat.leb_le, ?Nat.eqb_eq in *.

(** Replace a closed pattern by its value, so that the matcher runs on
    it. *)
Ltac norm r := let v := eval vm_compute in r in change r with v.

Ltac run_matcher := cbn -[N.leb N.mul N.add N.sub]; bool_to_prop.

Lemma L_chr a t : L (chr a) t <-> t = [N_of_ascii a].
Proof.
  unfold chr, rng. cbn [L in_class existsb]. split.
  - intros (c & -> & H). bool_to_prop. f_equal.
    destruct H as [H|H]; [lia | discriminate].
  - intros ->. exists (N_of_ascii a). split; [reflexivity|].
    now rewrite N.leb_refl.
Qed.

(** *** IPv4 *)

Lemma octet_spec o : L octet o <-> is_octet o = true.
Proof.
  rewrite <- test_spec. unfold test, is_octet, decimal_value, is_digit.
  norm octet.
  destruct o as [|c1 [|c2 [|c3 [|c4 o]]]]; run_matcher; lia.
Qed.

Lemma ipv4Regex_spec s :
  L ipv4Regex s <->
  exists a b c d, s = join (str ".") [a; b; c; d]
    /\ L octet a /\ L octet b /\ L octet c /\ L octet d.
Proof.
  unfold ipv4Regex. cbn [seq L]. split.
  - intros (a & t1 & -> & Ha & p1 & t2 & -> & H1 & b & t3 & -> & Hb
            & p2 & t4 & -> & H2 & c & t5 & -> & Hc & p3 & d & -> & H3 & Hd).
    apply L_chr in H1, H2, H3. subst p1 p2 p3.
    exists a, b, c, d. repeat split; assumption.
  - intros (a & b & c & d & -> & Ha & Hb & Hc & Hd).
    exists a, (str "." ++ b ++ str "." ++ c ++ str "." ++ d). repeat split; [assumption|].
    exists (str "."), (b ++ str "." ++ c ++ str "." ++ d).
    repeat split; [now apply L_chr|].
    exists b, (str "." ++ c ++ str "." ++ d). repeat split; [assumption|].
    exists (str "."), (c ++ str "." ++ d). repeat split; [now apply L_chr|].
    exists c, (str "." ++ d). repeat split; [assumption|].
    exists (str "."), d. repeat split; [now apply L_chr | assumption].
Qed.

(** The IPv4 validator accepts exactly four decimal octets joined by
    dots. *)
Lemma isValidIPv4_iff s :
  isValidIPv4 s = true <->
  exists a b c d, s = join (str ".") [a; b; c; d]
    /\ is_octet a = true /\ is_octet b = true
    /\ is_octet c = true /\ is_octet d = true.
Proof.
  unfold isValidIPv4. rewrite test_spec, ipv4Regex_spec. split.
  - intros (a & b & c & d & -> & Ha & Hb & Hc & Hd).
    apply octet_spec in Ha, Hb, Hc, Hd. exists a, b, c, d. auto.
  - intros (a & b & c & d & -> & Ha & Hb & Hc & Hd).
    apply octet_spec in Ha, Hb, Hc, Hd. exists a, b, c, d. auto.
Qed.

Lemma digits_free_of c o :
  is_digit c = false -> forallb is_digit o = true -> ~ In c o.
Proof.
  intros Hc Ho Hin. rewrite forallb_forall in Ho.
  specialize (Ho _ Hin). congruence.
Qed.

Lemma octet_no_dot o : is_octet o = true -> ~ In dot o.
Proof.
  unfold is_octet. intros H. bool_to_prop.
  apply digits_free_of; [reflexivity | tauto].
Qed.

(** Reversal of four octets. *)
Lemma reverseIPv4_octets a b c d :
  is_octet a = true -> is_octet b = true ->
  is_octet c = true -> is_octet d = true ->
  reverseIPv4 (join (str ".") [a; b; c; d]) = Ok (join (str ".") [d; c; b; a]).
Proof.
  intros Ha Hb Hc Hd. unfold reverseIPv4.
  assert (isValidIPv4 (join (str ".") [a; b; c; d]) = true) as ->.
  { apply isValidIPv4_iff. exists a, b, c, d. auto. }
  cbn [negb]. change (str ".") with [dot].
  rewrite split_join1; [reflexivity | discriminate |].
  repeat constructor; now apply octet_no_dot.
Qed.

Lemma reverseIPv4_invalid s :
  isValidIPv4 s = false -> reverseIPv4 s = Throw (Error "Invalid IPv4 address").
Proof. intros H. unfold reverseIPv4. now rewrite H. Qed.

(** *** The two families are disjoint *)

Lemma isValidIPv4_no_colon s : isValidIPv4 s = true -> occ colon s = 0.
Proof.
  intros H. apply test_spec in H.
  pose proof (max_occ_sound colon ipv4Regex 0 s) as Hmax.
  assert (occ colon s <= 0); [|lia]. apply Hmax; [|exact H].
  vm_compute. reflexivity.
Qed.

Lemma isValidIPv6_colons s : isValidIPv6 s = true -> 1 <= occ colon s <= 8.
Proof.
  intros H. apply test_spec in H. split.
  - change 1 with (min_occ colon ipv6Regex). now apply min_occ_sound.
  - apply (max_occ_sound colon ipv6Regex); [|exact H]. vm_compute. reflexivity.
Qed.

Lemma families_disjoint s :
  isValidIPv4 s = true -> isValidIPv6 s = true -> False.
Proof.
  intros H4 H6. apply isValidIPv4_no_colon in H4.
  apply isValidIPv6_colons in H6. lia.
Qed.

(** *** Expansion never runs out of groups *)

Lemma groups_of_length p : length (groups_of (Some p)) <= S (occ colon p).
Proof.
  destruct p as [|x p]; [cbn; lia|].
  cbn [groups_of]. change (str ":") with [colon].
  rewrite length_split1. lia.
Qed.

Lemma expandIPv6_ok s : occ colon s <= 8 -> exists e, expandIPv6 s = Ok e.
Proof.
  intros H. unfold expandIPv6.
  destruct (includes s (str "::")) eqn:E; [|eexists; reflexivity].
  change (str "::") with [colon; colon] in *.
  destruct (split_includes _ _ _ E) as (p & q & ps & Hs).
  rewrite Hs. cbn [nth_error].
  pose proof (join_split colon [colon] s) as Hj.
  rewrite Hs, join_cons in Hj.
  assert (occ colon p + 2 + occ colon q <= occ colon s) as Hocc.
  { rewrite <- Hj, !occ_app.
    pose proof (occ_join_head colon [colon; colon] q ps).
    change (occ colon [colon; colon]) with 2. lia. }
  pose proof (groups_of_length p). pose proof (groups_of_length q).
  unfold Array_fill.
  match goal with |- context [Z.ltb ?n 0] => destruct (Z.ltb_spec n 0) end;
    [lia|].
  eexists; reflexivity.
Qed.

(** Every valid IPv6 string is reversed: no exception escapes. *)
Lemma reverseIPv6_ok s :
  isValidIPv6 s = true -> exists out, reverseIPv6 s = Ok out.
Proof.
  intros H. unfold reverseIPv6. rewrite H. cbn [negb].
  destruct (expandIPv6_ok s) as (e & ->); [|eexists; reflexivity].
  now apply isValidIPv6_colons.
Qed.

Lemma reverseIPv6_invalid s :
  isValidIPv6 s = false -> reverseIPv6 s = Throw (Error "Invalid IPv6 address").
Proof. intros H. unfold reverseIPv6. now rewrite H. Qed.

(** *** The fully expanded form *)

Lemma group4_h16 g : is_group4 g = true -> L h16 g.
Proof.
  rewrite <- test_spec. unfold test, is_group4, is_hex. norm h16.
  destruct g as [|c1 [|c2 [|c3 [|c4 [|c5 g]]]]]; run_matcher;
    cbn [length] in *; try lia; try tauto.
Qed.

Lemma group4_length g : is_group4 g = true -> length g = 4.
Proof. unfold is_group4. intros H. bool_to_prop. tauto. Qed.

Lemma group4_no_colon g : is_group4 g = true -> ~ In colon g.
Proof.
  unfold is_group4. intros H Hin. bool_to_prop. destruct H as [_ H].
  rewrite forallb_forall in H. specialize (H _ Hin). discriminate.
Qed.

Lemma group4_not_nil g : is_group4 g = true -> g <> [].
Proof. intros H ->. discriminate. Qed.

Lemma expanded_groups gs :
  is_expanded gs = true ->
  length gs = 8 /\ Forall (fun g => is_group4 g = true) gs.
Proof.
  unfold is_expanded. intros H. bool_to_prop.
  split; [tauto|]. apply Forall_forall. apply forallb_forall. tauto.
Qed.

Lemma expanded_rev gs : is_expanded gs = true -> is_expanded (rev gs) = true.
Proof.
  unfold is_expanded. intros H. bool_to_prop.
  rewrite length_rev. split; [tauto|].
  apply forallb_forall. intros g Hg. apply in_rev in Hg.
  destruct H as [_ H]. rewrite forallb_forall in H. now apply H.
Qed.

(** Eight full groups joined by colons match the first alternative. *)
Lemma expanded_valid gs :
  is_expanded gs = true -> isValidIPv6 (join (str ":") gs) = true.
Proof.
  intros H. apply expanded_groups in H. destruct H as [Hlen Hall].
  destruct gs as [|g1 [|g2 [|g3 [|g4 [|g5 [|g6 [|g7 [|g8 [|g9 gs]]]]]]]]];
    try discriminate.
  repeat match goal with
         | H : Forall _ (_ :: _) |- _ =>
             apply Forall_cons_iff in H; destruct H as [?Hg H]
         end.
  repeat match goal with
         | H : is_group4 _ = true |- _ => apply group4_h16 in H
         end.
  apply test_spec. unfold ipv6Regex. cbn [alt L]. left.
  exists (join (str ":") [g1; g2; g3; g4; g5; g6; g7] ++ str ":"), g8.
  split; [|split; [|assumption]].
  - cbn [join]. repeat rewrite <- app_assoc. reflexivity.
  - exists 7. split; [lia|]. split; [cbn; lia|].
    cbn [join iter]. repeat rewrite <- app_assoc.
    repeat match goal with
           | |- exists s1 s2, ?g ++ _ ++ ?t = _ /\ _ =>
               exists (g ++ str ":"), t; rewrite <- app_assoc;
               split; [reflexivity|]; split;
               [exists g, (str ":"); repeat split; [assumption | now apply L_chr]|]
           end.
    exists (g7 ++ str ":"), []. rewrite app_nil_r. repeat split.
    exists g7, (str ":"). repeat split; [assumption | now apply L_chr].
Qed.

Lemma expanded_pad gs :
  Forall (fun g => is_group4 g = true) gs ->
  map (fun group => padStart group 4 (str "0")) gs = gs.
Proof.
  induction 1 as [|g gs Hg _ IH]; [reflexivity|].
  cbn [map]. rewrite IH, padStart_long; [reflexivity|].
  apply group4_length in Hg. lia.
Qed.

Lemma expanded_split gs :
  is_expanded gs = true -> split (join (str ":") gs) (str ":") = gs.
Proof.
  intros H. apply expanded_groups in H. destruct H as [Hlen Hall].
  change (str ":") with [colon]. apply split_join1.
  - intros ->. discriminate.
  - eapply Forall_impl; [|exact Hall]. intros g. apply group4_no_colon.
Qed.

(** Expansion leaves the fully expanded form as it is. *)
Lemma expandIPv6_expanded gs :
  is_expanded gs = true ->
  expandIPv6 (join (str ":") gs) = Ok (join (str ":") gs).
Proof.
  intros H. unfold expandIPv6.
  assert (includes (join (str ":") gs) (str "::") = false) as ->.
  { apply expanded_groups in H. destruct H as [_ Hall].
    change (str ":") with [colon]. change (str "::") with [colon; colon].
    apply includes2_join. eapply Forall_impl; [|exact Hall].
    intros g Hg. split; [now apply group4_not_nil | now apply group4_no_colon]. }
  cbn [bind]. rewrite expanded_split by assumption.
  rewrite expanded_pad; [reflexivity|]. now apply expanded_groups.
Qed.

Lemma reverseIPv6_expanded gs :
  is_expanded gs = true ->
  reverseIPv6 (join (str ":") gs) = Ok (join (str ":") (rev gs)).
Proof.
  intros H. unfold reverseIPv6.
  rewrite expanded_valid, expandIPv6_expanded by assumption.
  cbn [negb bind]. now rewrite expanded_split.
Qed.

(** *** Dispatch *)

Lemma reverseIP_v4 s : isValidIPv4 s = true -> reverseIP s = reverseIPv4 s.
Proof. intros H. unfold reverseIP. now rewrite H. Qed.

Lemma reverseIP_v6 s :
  isValidIPv4 s = false -> isValidIPv6 s = true -> reverseIP s = reverseIPv6 s.
Proof. intros H4 H6. unfold reverseIP. now rewrite H4, H6. Qed.

Lemma reverseIP_invalid s :
  isValidIP s = false -> reverseIP s = Throw (Error "Invalid IP address format").
Proof.
  unfold isValidIP, reverseIP. intros H. apply orb_false_iff in H.
  destruct H as [-> ->]. reflexivity.
Qed.

Lemma isValidIPv6_not_v4 s : isValidIPv6 s = true -> isValidIPv4 s = false.
Proof.
  intros H6. destruct (isValidIPv4 s) eqn:H4; [|reflexivity].
  exfalso. eapply families_disjoint; eassumption.
Qed.

Lemma reverseIP_ok s : isValidIP s = true -> exists out, reverseIP s = Ok out.
Proof.
  unfold isValidIP. intros H.
  destruct (isValidIPv4 s) eqn:H4.
  - rewrite reverseIP_v4 by assumption. unfold reverseIPv4. rewrite H4.
    eexists; reflexivity.
  - cbn [orb] in H. rewrite reverseIP_v6 by assumption.
    now apply reverseIPv6_ok.
Qed.

Lemma reverseIP_octets a b c d :
  is_octet a = true -> is_octet b = true ->
  is_octet c = true -> is_octet d = true ->
  reverseIP (join (str ".") [a; b; c; d]) = Ok (join (str ".") [d; c; b; a]).
Proof.
  intros Ha Hb Hc Hd. rewrite reverseIP_v4.
  - now apply reverseIPv4_octets.
  - apply isValidIPv4_iff. exists a, b, c, d. auto.
Qed.

Lemma reverseIP_expanded gs :
  is_expanded gs = true ->
  reverseIP (join (str ":") gs) = Ok (join (str ":") (rev gs)).
Proof.
  intros H. rewrite reverseIP_v6.
  - now apply reverseIPv6_expanded.
  - apply isValidIPv6_not_v4. now apply expanded_valid.
  - now apply expanded_valid.
Qed.

(** *** Extraction *)

Lemma hd_split1 c : forall s, hd [] (split s [c]) = before c s.
Proof.
  induction s as [|x s IH]; [reflexivity|].
  rewrite split1_cons. cbn [before].
  destruct (N.eqb c x); [reflexivity|].
  pose proof (split_not_nil s c []) as Hne.
  destruct (split s [c]) as [|p ps]; [congruence|].
  cbn [hd] in *. now rewrite IH.
Qed.

Lemma extractClientIP_cases req :
  let forwarded := x_forwarded_for (headers req) in
  let realIP := x_real_ip (headers req) in
  let raw := connectionAddress req in
  extractClientIP req =
  if truthy forwarded then trim (before comma (the forwarded))
  else if truthy realIP then the realIP
  else if truthy raw then strip_mapped_prefix (the raw)
  else str "unknown".
Proof.
  cbv zeta. unfold extractClientIP, strip_mapped_prefix, substring.
  change (str ",") with [comma]. rewrite hd_split1.
  destruct (truthy (x_forwarded_for (headers req))); [reflexivity|].
  destruct (truthy (x_real_ip (headers req))); [reflexivity|].
  set (raw := connectionAddress req).
  destruct (truthy raw) eqn:E.
  - cbn [andb]. destruct (startsWith (the raw) (str "::ffff:")); [reflexivity|].
    unfold or_else. now rewrite E.
  - cbn [andb]. unfold or_else. now rewrite E.
Qed.

(** *** The hexadecimal forms, compressed or not *)

Lemma concat_repeat_one (z : N) n : concat (repeat [z] n) = repeat z n.
Proof. induction n as [|n IH]; [reflexivity|]. cbn. now rewrite IH. Qed.

Lemma pad4_zeros g : pad4 g = repeat zero (4 - length g) ++ g.
Proof.
  unfold pad4, padStart. change (str "0") with [zero].
  rewrite concat_repeat_one.
  rewrite firstn_all2; [reflexivity|]. now rewrite repeat_length.
Qed.

Lemma group_h16 g : is_group g = true -> L h16 g.
Proof.
  rewrite <- test_spec. unfold test, is_group, is_hex. norm h16.
  destruct g as [|c1 [|c2 [|c3 [|c4 [|c5 g]]]]]; run_matcher;
    cbn [length] in *; try lia; try tauto.
Qed.

Lemma group_no_colon g : is_group g = true -> ~ In colon g.
Proof.
  unfold is_group. intros H Hin. bool_to_prop. destruct H as [_ H].
  rewrite forallb_forall in H. specialize (H _ Hin). discriminate.
Qed.

Lemma group_not_nil g : is_group g = true -> g <> [].
Proof. intros H ->. discriminate. Qed.

Lemma group_pad4 g : is_group g = true -> is_group4 (pad4 g) = true.
Proof.
  intros H. rewrite pad4_zeros. unfold is_group, is_group4 in *. bool_to_prop.
  destruct H as [[Hlo Hhi] Hhex]. split.
  - rewrite length_app, repeat_length. lia.
  - rewrite forallb_app, Hhex, andb_true_r.
    apply forallb_forall. intros x Hx. apply repeat_spec in Hx. now subst x.
Qed.

Lemma group4_zeros : is_group4 (str "0000") = true.
Proof. reflexivity. Qed.

Lemma group_list_free gs :
  group_list gs -> Forall (fun g => g <> [] /\ ~ In colon g) gs.
Proof.
  intros H. eapply Forall_impl; [|exact H]. intros g Hg.
  split; [now apply group_not_nil | now apply group_no_colon].
Qed.

Lemma join_not_nil sep g gs : g <> [] -> join sep (g :: gs) <> [].
Proof.
  intros Hg. destruct g as [|x g]; [congruence|].
  rewrite join_cons_head. discriminate.
Qed.

Lemma join_snoc c g gs x :
  join [c] ((g :: gs) ++ [x]) = (join [c] (g :: gs) ++ [c]) ++ x.
Proof.
  revert g. induction gs as [|h gs IH]; intros g.
  - cbn [app join]. now rewrite <- app_assoc.
  - change ((g :: h :: gs) ++ [x]) with (g :: ((h :: gs) ++ [x])).
    change ((h :: gs) ++ [x]) with (h :: (gs ++ [x])) at 1.
    rewrite join_cons. change (h :: gs ++ [x]) with ((h :: gs) ++ [x]).
    rewrite IH, join_cons. now rewrite <- !app_assoc.
Qed.

(** The groups before a [::] each end in a colon, the groups after it
    each start with one. *)
Lemma join_colon_end g gs :
  join [colon] (g :: gs) ++ [colon] = concat (map (fun g => g ++ [colon]) (g :: gs)).
Proof.
  revert g. induction gs as [|h gs IH]; intros g.
  - cbn. now rewrite app_nil_r.
  - rewrite join_cons, <- !app_assoc, IH. cbn [map concat].
    now rewrite <- !app_assoc.
Qed.

Lemma join_colon_start g gs :
  colon :: join [colon] (g :: gs) = concat (map (fun g => colon :: g) (g :: gs)).
Proof.
  revert g. induction gs as [|h gs IH]; intros g.
  - cbn. now rewrite app_nil_r.
  - rewrite join_cons. change (colon :: g ++ [colon] ++ join [colon] (h :: gs))
      with ((colon :: g) ++ colon :: join [colon] (h :: gs)).
    rewrite IH. reflexivity.
Qed.

Lemma iter_h16_colon gs :
  group_list gs ->
  iter (L h16_colon) (length gs) (concat (map (fun g => g ++ [colon]) gs)).
Proof.
  induction 1 as [|g gs Hg _ IH]; [reflexivity|].
  cbn [length map concat iter].
  exists (g ++ [colon]), (concat (map (fun g => g ++ [colon]) gs)).
  repeat split; [|exact IH].
  exists g, [colon]. repeat split; [now apply group_h16 | now apply L_chr].
Qed.

Lemma iter_colon_h16 gs :
  group_list gs ->
  iter (L colon_h16) (length gs) (concat (map (fun g => colon :: g) gs)).
Proof.
  induction 1 as [|g gs Hg _ IH]; [reflexivity|].
  cbn [length map concat iter].
  exists (colon :: g), (concat (map (fun g => colon :: g) gs)).
  repeat split; [|exact IH].
  exists [colon], g. repeat split; [now apply L_chr | now apply group_h16].
Qed.

(** Eight groups joined by colons match the first alternative. *)
Lemma uncompressed_valid gs :
  length gs = 8 -> group_list gs -> isValidIPv6 (join (str ":") gs) = true.
Proof.
  intros Hlen Hall. apply test_spec.
  destruct (exists_last (l := gs)) as (front & g8 & ->); [intros ->; discriminate|].
  rewrite length_app in Hlen. cbn in Hlen.
  apply Forall_app in Hall. destruct Hall as [Hfront Hlast].
  apply Forall_cons_iff in Hlast. destruct Hlast as [Hg8 _].
  unfold ipv6Regex. cbn [alt L]. left.
  destruct front as [|g front]; [discriminate|].
  exists (join [colon] (g :: front) ++ [colon]), g8.
  split; [|split; [|now apply group_h16]].
  - change (str ":") with [colon]. apply join_snoc.
  - exists 7. split; [lia|]. split; [cbn; lia|].
    rewrite join_colon_end.
    replace 7 with (length (g :: front)) by lia.
    now apply iter_h16_colon.
Qed.

(** Every placement of [::] among at most seven groups is accepted. *)
Lemma compressed_valid ls rs :
  group_list ls -> group_list rs -> length ls + length rs <= 7 ->
  isValidIPv6 (join (str ":") ls ++ str "::" ++ join (str ":") rs) = true.
Proof.
  intros Hl Hr Hlen. apply test_spec.
  change (str ":") with [colon]. change (str "::") with [colon; colon].
  unfold ipv6Regex, rep. cbn [alt L].
  destruct ls as [|l ls].
  - (* nothing before: the ninth alternative *)
    do 8 right. left. exists [colon], (colon :: join [colon] rs).
    split; [reflexivity|]. split; [now apply L_chr|].
    destruct rs as [|r rs].
    + right. now apply L_chr.
    + left. exists (length (r :: rs)). split; [cbn; lia|]. split; [cbn in *; lia|].
      rewrite join_colon_start. now apply iter_colon_h16.
  - assert (Hleft : forall a, length (l :: ls) <= a ->
              exists n, 1 <= n /\ within n (Some a)
                /\ iter (L h16_colon) n (join [colon] (l :: ls) ++ [colon])).
    { intros a Ha. exists (length (l :: ls)). split; [cbn; lia|]. split; [exact Ha|].
      rewrite join_colon_end. now apply iter_h16_colon. }
    assert (Hsplit : forall t,
              join [colon] (l :: ls) ++ [colon; colon] ++ t
              = (join [colon] (l :: ls) ++ [colon]) ++ colon :: t).
    { intros t. now rewrite <- app_assoc. }
    destruct rs as [|r rs].
    + (* nothing after: the second alternative *)
      right. left.
      exists (join [colon] (l :: ls) ++ [colon]), [colon].
      split; [now rewrite <- app_assoc|].
      split; [apply Hleft; cbn in *; lia | now apply L_chr].
    + assert (Hright : forall b, length (r :: rs) <= b ->
                exists n, 1 <= n /\ within n (Some b)
                  /\ iter (L colon_h16) n (colon :: join [colon] (r :: rs))).
      { intros b Hb. exists (length (r :: rs)). split; [cbn; lia|]. split; [exact Hb|].
        rewrite join_colon_start. now apply iter_colon_h16. }
      rewrite Hsplit.
      destruct rs as [|r2 [|r3 [|r4 [|r5 [|r6 rs]]]]].
      * (* one group after: the third alternative *)
        do 2 right. left.
        exists (join [colon] (l :: ls) ++ [colon]), (colon :: join [colon] [r]).
        split; [reflexivity|]. split; [apply Hleft; cbn in *; lia|].
        exists [colon], r. repeat split; [now apply L_chr|].
        apply Forall_cons_iff in Hr. now apply group_h16.
      * do 3 right. left.
        exists (join [colon] (l :: ls) ++ [colon]), (colon :: join [colon] [r; r2]).
        split; [reflexivity|].
        split; [apply Hleft | apply Hright]; cbn in *; lia.
      * do 4 right. left.
        exists (join [colon] (l :: ls) ++ [colon]), (colon :: join [colon] [r; r2; r3]).
        split; [reflexivity|].
        split; [apply Hleft | apply Hright]; cbn in *; lia.
      * do 5 right. left.
        exists (join [colon] (l :: ls) ++ [colon]), (colon :: join [colon] [r; r2; r3; r4]).
        split; [reflexivity|].
        split; [apply Hleft | apply Hright]; cbn in *; lia.
      * do 6 right. left.
        exists (join [colon] (l :: ls) ++ [colon]),
          (colon :: join [colon] [r; r2; r3; r4; r5]).
        split; [reflexivity|].
        split; [apply Hleft | apply Hright]; cbn in *; lia.
      * (* six groups after, one before: the eighth alternative *)
        destruct ls as [|l2 ls]; [|cbn in Hlen; lia].
        destruct rs as [|r7 rs]; [|cbn in Hlen; lia].
        do 7 right. left.
        exists (l ++ [colon]), (colon :: join [colon] [r; r2; r3; r4; r5; r6]).
        split; [reflexivity|]. split.
        -- exists l, [colon]. repeat split; [|now apply L_chr].
           apply Forall_cons_iff in Hl. now apply group_h16.
        -- apply Hright. cbn. lia.
Qed.

(** Expansion of the hexadecimal forms. *)
Lemma groups_of_join gs :
  group_list gs -> groups_of (Some (join (str ":") gs)) = gs.
Proof.
  intros H. destruct gs as [|g gs]; [reflexivity|].
  assert (join (str ":") (g :: gs) <> []) as Hne.
  { apply join_not_nil. apply Forall_cons_iff in H. now apply group_not_nil. }
  destruct (join (str ":") (g :: gs)) as [|x t] eqn:E; [congruence|].
  cbn [groups_of]. rewrite <- E. change (str ":") with [colon].
  apply split_join1; [discriminate|].
  eapply Forall_impl; [|exact H]. intros h. apply group_no_colon.
Qed.

Lemma pad4_full g : is_group4 g = true -> pad4 g = g.
Proof.
  intros H. apply padStart_long. apply group4_length in H. lia.
Qed.

Lemma expandIPv6_uncompressed gs :
  length gs = 8 -> group_list gs ->
  expandIPv6 (join (str ":") gs) = Ok (join (str ":") (map pad4 gs)).
Proof.
  intros Hlen H. unfold expandIPv6.
  assert (includes (join (str ":") gs) (str "::") = false) as ->.
  { change (str ":") with [colon]. change (str "::") with [colon; colon].
    apply includes2_join. now apply group_list_free. }
  cbn [bind]. change (str ":") with [colon].
  rewrite split_join1; [reflexivity | intros ->; discriminate |].
  eapply Forall_impl; [|exact H]. intros h. apply group_no_colon.
Qed.

Lemma expandIPv6_compressed ls rs :
  group_list ls -> group_list rs -> length ls + length rs <= 7 ->
  expandIPv6 (join (str ":") ls ++ str "::" ++ join (str ":") rs)
  = Ok (join (str ":")
          (map pad4 ls ++ repeat (str "0000") (8 - length ls - length rs)
           ++ map pad4 rs)).
Proof.
  intros Hl Hr Hlen.
  set (s := join (str ":") ls ++ str "::" ++ join (str ":") rs).
  assert (includes s (str "::") = true) as Hinc by apply includes_middle.
  assert (split s (str "::") = [join (str ":") ls; join (str ":") rs]) as Hsplit.
  { apply (split2_compressed colon); now apply group_list_free. }
  unfold expandIPv6. rewrite Hinc, Hsplit. cbn [nth_error]. cbv zeta.
  rewrite !groups_of_join by assumption.
  unfold Array_fill.
  match goal with |- context [Z.ltb ?n 0] => destruct (Z.ltb_spec n 0) end; [lia|].
  cbn [bind].
  replace (Z.to_nat (8 - Z.of_nat (length ls) - Z.of_nat (length rs)))
    with (8 - length ls - length rs) by lia.
  change (str ":") with [colon].
  rewrite split_join1.
  - rewrite !map_app, map_repeat. reflexivity.
  - intros E. apply (f_equal (@length _)) in E.
    rewrite !length_app, repeat_length in E.
    cbn [length] in E. lia.
  - apply Forall_app. split; [|apply Forall_app; split].
    + eapply Forall_impl; [|exact Hl]. intros h. apply group_no_colon.
    + apply Forall_forall. intros x Hx. apply repeat_spec in Hx. subst x.
      now apply group4_no_colon.
    + eapply Forall_impl; [|exact Hr]. intros h. apply group_no_colon.
Qed.

Lemma forallb_pad4 gs : group_list gs -> forallb is_group4 (map pad4 gs) = true.
Proof.
  induction 1 as [|g gs Hg _ IH]; [reflexivity|].
  cbn [map forallb]. now rewrite group_pad4, IH.
Qed.

Lemma expanded_uncompressed gs :
  length gs = 8 -> group_list gs -> is_expanded (map pad4 gs) = true.
Proof.
  intros Hlen H. unfold is_expanded.
  now rewrite length_map, Hlen, forallb_pad4.
Qed.

Lemma expanded_compressed ls rs :
  group_list ls -> group_list rs -> length ls + length rs <= 7 ->
  is_expanded (map pad4 ls ++ repeat (str "0000") (8 - length ls - length rs)
               ++ map pad4 rs) = true.
Proof.
  intros Hl Hr Hlen. unfold is_expanded. apply andb_true_iff. split.
  - apply Nat.eqb_eq. rewrite !length_app, !length_map, repeat_length. lia.
  - rewrite !forallb_app, !forallb_pad4 by assumption.
    rewrite andb_true_r. cbn [andb]. apply forallb_forall.
    intros x Hx. apply repeat_spec in Hx. now subst x.
Qed.

(** *** Reversing twice *)

Lemma reverseIP_twice_v4 s :
  isValidIPv4 s = true -> bind (reverseIP s) reverseIP = Ok s.
Proof.
  intros H. apply isValidIPv4_iff in H.
  destruct H as (a & b & c & d & -> & Ha & Hb & Hc & Hd).
  rewrite reverseIP_octets by assumption. cbn [bind].
  now apply reverseIP_octets.
Qed.

Lemma reverseIP_twice_expanded gs :
  is_expanded gs = true ->
  bind (reverseIP (join (str ":") gs)) reverseIP = Ok (join (str ":") gs).
Proof.
  intros H. rewrite reverseIP_expanded by assumption. cbn [bind].
  rewrite reverseIP_expanded by now apply expanded_rev.
  now rewrite rev_involutive.
Qed.

End IpFacts.

(* ------------------------------------------------------------------ *)
(** ** The properties of the specification *)

Import JS IpUtils Spec.

(** C1: [reverseIP] raises [InvalidAddress] exactly when its argument is
    neither a valid IPv4 nor a valid IPv6 string, that is when [isValidIP],
    the disjunction of the two validators, is false; otherwise it returns
    what [reverseIPv4] returns when the IPv4 validator holds and what
    [reverseIPv6] returns when only the IPv6 validator holds.  It checks
    validity itself: the result depends on the string alone. *)
Theorem reverseIP_dispatch (s : jsstring) :
  isValidIP s = isValidIPv4 s || isValidIPv6 s
  /\ (isValidIP s = false <-> exists e, reverseIP s = Throw e)
  /\ (isValidIP s = false -> reverseIP s = Throw (Error "Invalid IP address format"))
  /\ (isValidIPv4 s = true -> reverseIP s = reverseIPv4 s)
  /\ (isValidIPv4 s = false -> isValidIPv6 s = true -> reverseIP s = reverseIPv6 s).
Proof.
  split; [reflexivity|]. split; [|split; [|split]].
  - split.
    + intros H. eexists. now apply IpFacts.reverseIP_invalid.
    + intros (e & He). destruct (isValidIP s) eqn:E; [|reflexivity].
      destruct (IpFacts.reverseIP_ok s E) as (out & Hout). congruence.
  - apply IpFacts.reverseIP_invalid.
  - apply IpFacts.reverseIP_v4.
  - apply IpFacts.reverseIP_v6.
Qed.

Lemma reverseIP_dispatch_witness :
  reverseIP (str "not-an-ip") = Throw (Error "Invalid IP address format")
  /\ reverseIP (str "192.168.6.5") = reverseIPv4 (str "192.168.6.5")
  /\ reverseIP (str "::1") = reverseIPv6 (str "::1").
Proof.
  split; [|split].
  - apply (reverseIP_dispatch (str "not-an-ip")). vm_compute. reflexivity.
  - apply (reverseIP_dispatch (str "192.168.6.5")). vm_compute. reflexivity.
  - apply (reverseIP_dispatch (str "::1")); vm_compute; reflexivity.
Defined.

(** C2: for every valid IPv4 string [a.b.c.d], each octet of one to three
    digits and value at most 255, [reverseIPv4] returns [d.c.b.a]: it
    splits on the dot, reverses the four pieces and joins them with dots,
    each digit string unchanged, leading zeros included; every string that
    is not valid IPv4 fails with [InvalidAddress]. *)
Theorem reverseIPv4_reverses_octets :
  (forall a b c d,
      is_octet a = true -> is_octet b = true ->
      is_octet c = true -> is_octet d = true ->
      reverseIPv4 (join (str ".") [a; b; c; d]) = Ok (join (str ".") [d; c; b; a]))
  /\ (forall s, isValidIPv4 s = true ->
        exists a b c d,
          s = join (str ".") [a; b; c; d]
          /\ is_octet a = true /\ is_octet b = true
          /\ is_octet c = true /\ is_octet d = true
          /\ split s (str ".") = [a; b; c; d]
          /\ reverseIPv4 s = Ok (join (str ".") [d; c; b; a]))
  /\ reverseIPv4 (str "192.168.6.5") = Ok (str "5.6.168.192")
  /\ reverseIPv4 (str "01.002.3.4") = Ok (str "4.3.002.01")
  /\ (forall s, isValidIPv4 s = false ->
        reverseIPv4 s = Throw (Error "Invalid IPv4 address")).
Proof.
  split; [|split; [|split; [|split]]].
  - apply IpFacts.reverseIPv4_octets.
  - intros s H. apply IpFacts.isValidIPv4_iff in H.
    destruct H as (a & b & c & d & -> & Ha & Hb & Hc & Hd).
    exists a, b, c, d. repeat split; try assumption.
    + change (str ".") with [dot]. apply JSFacts.split_join1; [discriminate|].
      repeat constructor; now apply IpFacts.octet_no_dot.
    + now apply IpFacts.reverseIPv4_octets.
  - vm_compute. reflexivity.
  - vm_compute. reflexivity.
  - apply IpFacts.reverseIPv4_invalid.
Qed.

Lemma reverseIPv4_reverses_octets_witness :
  reverseIPv4 (join (str ".") [str "10"; str "0"; str "020"; str "255"])
  = Ok (join (str ".") [str "255"; str "020"; str "0"; str "10"])
  /\ reverseIPv4 (str "1.2.3") = Throw (Error "Invalid IPv4 address").
Proof.
  split.
  - apply (proj1 reverseIPv4_reverses_octets); reflexivity.
  - apply reverseIPv4_reverses_octets. vm_compute. reflexivity.
Defined.

(** C3: the string ["fe80:%0"] passes the IPv6 validator, and [reverseIPv6]
    reverses the two pieces of its expansion, ["fe80:00%0"]; the
    specification has a sequence of eight groups reversed for every valid
    IPv6 string.  The example of the specification is reversed as
    stated. *)
Theorem reverseIPv6_two_pieces :
  isValidIPv6 (str "fe80:%0") = true
  /\ expandIPv6 (str "fe80:%0") = Ok (str "fe80:00%0")
  /\ length (split (str "fe80:00%0") (str ":")) = 2
  /\ reverseIPv6 (str "fe80:%0") = Ok (str "00%0:fe80")
  /\ reverseIPv6 (str "2001:0db8:85a3:0000:0000:8a2e:0370:7334")
     = Ok (str "7334:0370:8a2e:0000:0000:85a3:0db8:2001").
Proof. repeat split; vm_compute; reflexivity. Qed.

(** C4: the IPv4-mapped address ["::ffff:192.168.1.1"] and the link-local
    address ["fe80::1%eth0"] pass the IPv6 validator, and [expandIPv6]
    leaves the dotted tail and the group with the zone index as they are:
    the last piece of each expansion is not a group of four hexadecimal
    digits, where the specification has eight such groups for every valid
    IPv6 string.  The example of the specification expands as stated. *)
Theorem expandIPv6_tail_not_a_group :
  isValidIPv6 (str "::ffff:192.168.1.1") = true
  /\ expandIPv6 (str "::ffff:192.168.1.1")
     = Ok (str "0000:0000:0000:0000:0000:0000:ffff:192.168.1.1")
  /\ map is_group4 (split (str "0000:0000:0000:0000:0000:0000:ffff:192.168.1.1") (str ":"))
     = [true; true; true; true; true; true; true; false]
  /\ isValidIPv6 (str "fe80::1%eth0") = true
  /\ expandIPv6 (str "fe80::1%eth0")
     = Ok (str "fe80:0000:0000:0000:0000:0000:0000:1%eth0")
  /\ is_group4 (str "1%eth0") = false
  /\ expandIPv6 (str "2001:db8::8a2e:370:7334")
     = Ok (str "2001:0db8:0000:0000:0000:8a2e:0370:7334").
Proof. repeat split; vm_compute; reflexivity. Qed.

(** C5: [isValidIPv4] holds exactly of four decimal octets joined by dots,
    with nothing before, after or between; an octet matches the
    alternation [25[0-5]|2[0-4][0-9]|[01]?[0-9][0-9]?] exactly when it has
    one to three digits and a value of at most 255, so ["01"] and ["001"]
    are octets; and [isValidIP "256.1.1.1"] is false. *)
Theorem isValidIPv4_four_octets :
  (forall s,
      isValidIPv4 s = true <->
      exists a b c d,
        s = join (str ".") [a; b; c; d]
        /\ is_octet a = true /\ is_octet b = true
        /\ is_octet c = true /\ is_octet d = true)
  /\ (forall o, Regex.L octet o <-> is_octet o = true)
  /\ is_octet (str "01") = true
  /\ is_octet (str "001") = true
  /\ isValidIPv4 (str "01.002.3.4") = true
  /\ isValidIPv4 (str "1.2.3.4 ") = false
  /\ isValidIP (str "256.1.1.1") = false.
Proof.
  split; [exact IpFacts.isValidIPv4_iff|].
  split; [exact IpFacts.octet_spec|].
  repeat split; vm_compute; reflexivity.
Qed.

(** C6: [isValidIPv6] accepts ["fe80:::::%0"], a string with two
    occurrences of ["::"], and ["fe80:%0"], a string of two groups without
    ["::"]; the specification has every string with more than one ["::"]
    or a wrong group count rejected.  ["::1"] is accepted as stated. *)
Theorem isValidIPv6_accepts_two_compressions :
  isValidIPv6 (str "fe80:::::%0") = true
  /\ occurrences (str "fe80:::::%0") (str "::") = 2
  /\ isValidIPv6 (str "fe80:%0") = true
  /\ isValidIPv6 (str "::1") = true.
Proof. repeat split; vm_compute; reflexivity. Qed.

(** The requests of the examples. *)
Definition request (forwarded realIP remote : option jsstring) : Request :=
  {| headers := {| x_forwarded_for := forwarded; x_real_ip := realIP |};
     connection := Some {| remoteAddress := remote |};
     socket := None |}.

(** C7, as stated, fails: with no forwarded value, an empty real-ip value
    and the connection address ["10.0.0.1"], the code returns the
    connection address, not the real-ip value that is present; and with an
    empty connection address alone it returns ["unknown"], not the
    address. *)
Lemma extractClientIP_passes_over_empty_values :
  extractClientIP (request None (Some []) (Some (str "10.0.0.1"))) = str "10.0.0.1"
  /\ extractClientAddress None (Some []) (Some (str "10.0.0.1")) = []
  /\ extractClientIP (request None None (Some [])) = str "unknown"
  /\ extractClientAddress None None (Some []) = [].
Proof. repeat split; vm_compute; reflexivity. Qed.

(** C7, amended: [extractClientIP] takes its three candidates in strict
    priority, and a candidate counts when it is present and non-empty: the
    forwarded value gives its part before the first comma with surrounding
    white space trimmed, not validated; else the real-ip value is returned
    as it is; else the raw connection address is returned without the
    seven code units of a leading ["::ffff:"], and unchanged when it does
    not start with them; when no candidate counts the result is
    ["unknown"].  The function is total. *)
Theorem extractClientIP_priority (req : Request) :
  let forwarded := x_forwarded_for (headers req) in
  let realIP := x_real_ip (headers req) in
  let raw := connectionAddress req in
  (truthy forwarded = true ->
   extractClientIP req = trim (before comma (the forwarded)))
  /\ (truthy forwarded = false -> truthy realIP = true ->
      extractClientIP req = the realIP)
  /\ (truthy forwarded = false -> truthy realIP = false -> truthy raw = true ->
      startsWith (the raw) (str "::ffff:") = true ->
      extractClientIP req = skipn 7 (the raw))
  /\ (truthy forwarded = false -> truthy realIP = false -> truthy raw = true ->
      startsWith (the raw) (str "::ffff:") = false ->
      extractClientIP req = the raw)
  /\ (truthy forwarded = false -> truthy realIP = false -> truthy raw = false ->
      extractClientIP req = str "unknown")
  /\ (forall v, truthy v = true <-> exists c s, v = Some (c :: s)).
Proof.
  cbv zeta. rewrite (IpFacts.extractClientIP_cases req). cbv zeta.
  unfold strip_mapped_prefix.
  repeat split; try (intros; repeat match goal with H : _ = _ |- _ => rewrite H end; reflexivity).
  - destruct v as [[|c s]|]; try discriminate. intros _. now exists c, s.
  - intros (c & s & ->). reflexivity.
Qed.

Lemma extractClientIP_priority_witness :
  extractClientIP (request (Some (str "10.0.20.21, 5.5.5.5")) None None) = str "10.0.20.21"
  /\ extractClientIP (request None (Some (str "203.0.113.7")) (Some (str "10.0.0.1")))
     = str "203.0.113.7"
  /\ extractClientIP (request None None (Some (str "::ffff:192.168.1.1")))
     = str "192.168.1.1"
  /\ extractClientIP (request None None (Some (str "::1"))) = str "::1"
  /\ extractClientIP (request None None None) = str "unknown".
Proof.
  split; [|split; [|split; [|split]]].
  - apply (extractClientIP_priority (request (Some (str "10.0.20.21, 5.5.5.5")) None None)).
    reflexivity.
  - apply (extractClientIP_priority
             (request None (Some (str "203.0.113.7")) (Some (str "10.0.0.1"))));
      reflexivity.
  - apply (proj1 (proj2 (proj2 (extractClientIP_priority
             (request None None (Some (str "::ffff:192.168.1.1")))))));
      reflexivity.
  - apply (proj1 (proj2 (proj2 (proj2 (extractClientIP_priority
             (request None None (Some (str "::1"))))))));
      reflexivity.
  - apply (proj1 (proj2 (proj2 (proj2 (proj2 (extractClientIP_priority
             (request None None None)))))));
      reflexivity.
Defined.

(** C8, as stated, fails: no valid IPv4 string, leading zeros or not, is
    changed by reversing twice; ["01.002.3.4"] comes back as it was. *)
Lemma reverseIP_twice_keeps_every_ipv4 :
  ~ (exists s, isValidIPv4 s = true /\ bind (reverseIP s) reverseIP <> Ok s)
  /\ bind (reverseIP (str "01.002.3.4")) reverseIP = Ok (str "01.002.3.4").
Proof.
  split.
  - intros (s & H & Hne). apply Hne. now apply IpFacts.reverseIP_twice_v4.
  - vm_compute. reflexivity.
Qed.

(** C8, amended: reversing twice returns the original string for every
    fully expanded IPv6 address (eight groups of four hexadecimal digits)
    and for every valid IPv4 string; it does not on compressed IPv6 input,
    whose reversal is expanded: ["::1"] comes back as
    ["0000:0000:0000:0000:0000:0000:0000:0001"]. *)
Theorem reverseIP_twice :
  (forall gs, is_expanded gs = true ->
     bind (reverseIP (join (str ":") gs)) reverseIP = Ok (join (str ":") gs))
  /\ (forall s, isValidIPv4 s = true -> bind (reverseIP s) reverseIP = Ok s)
  /\ bind (reverseIP (str "::1")) reverseIP
     = Ok (str "0000:0000:0000:0000:0000:0000:0000:0001")
  /\ bind (reverseIP (str "::1")) reverseIP <> Ok (str "::1").
Proof.
  split; [exact IpFacts.reverseIP_twice_expanded|].
  split; [exact IpFacts.reverseIP_twice_v4|].
  split; [vm_compute; reflexivity|].
  vm_compute. discriminate.
Qed.

Lemma reverseIP_twice_witness :
  bind (reverseIP (str "2001:0db8:85a3:0000:0000:8a2e:0370:7334")) reverseIP
  = Ok (str "2001:0db8:85a3:0000:0000:8a2e:0370:7334")
  /\ bind (reverseIP (str "192.168.6.5")) reverseIP = Ok (str "192.168.6.5").
Proof.
  split.
  - apply (proj1 reverseIP_twice
             [str "2001"; str "0db8"; str "85a3"; str "0000";
              str "0000"; str "8a2e"; str "0370"; str "7334"]).
    reflexivity.
  - apply (proj1 (proj2 reverseIP_twice) (str "192.168.6.5")). reflexivity.
Defined.

(** C9: [normalizeIP] tests the literal prefix ["::ffff:"] and nothing
    else: a string that starts with it loses exactly those seven code
    units, whatever follows (["::ffff:zzzz"] gives ["zzzz"]), and any
    other string is returned unchanged.  The function is total. *)
Theorem normalizeIP_strips_literal_prefix :
  (forall r, normalizeIP (str "::ffff:" ++ r) = r)
  /\ (forall s, startsWith s (str "::ffff:") = true ->
        normalizeIP s = skipn 7 s /\ s = str "::ffff:" ++ normalizeIP s)
  /\ (forall s, startsWith s (str "::ffff:") = false -> normalizeIP s = s)
  /\ normalizeIP (str "::ffff:zzzz") = str "zzzz"
  /\ normalizeIP (str "::ffff:10.0.0.5") = str "10.0.0.5"
  /\ normalizeIP (str "10.0.0.5") = str "10.0.0.5".
Proof.
  split; [|split; [|split]].
  - intros r. unfold normalizeIP. now rewrite JSFacts.startsWith_prefix.
  - intros s H. unfold normalizeIP, substring. rewrite H. split; [reflexivity|].
    now apply JSFacts.startsWith_app in H.
  - intros s H. unfold normalizeIP. now rewrite H.
  - repeat split; vm_compute; reflexivity.
Qed.

Lemma normalizeIP_strips_literal_prefix_witness :
  normalizeIP (str "::ffff:8.8.8.8") = skipn 7 (str "::ffff:8.8.8.8")
  /\ normalizeIP (str "ffff::1") = str "ffff::1".
Proof.
  split.
  - apply (proj1 (proj2 normalizeIP_strips_literal_prefix)). reflexivity.
  - apply (proj1 (proj2 (proj2 normalizeIP_strips_literal_prefix))). reflexivity.
Defined.

(** C10: no string passes both validators: a string that passes the IPv4
    one has no colon, a string that passes the IPv6 one has at least one.
    So the IPv4 test that [reverseIP] makes first takes nothing from the
    IPv6 branch: every valid IPv6 string is reversed by [reverseIPv6]. *)
Theorem families_exclusive (s : jsstring) :
  isValidIPv4 s && isValidIPv6 s = false
  /\ (isValidIPv4 s = true -> Regex.occ colon s = 0)
  /\ (isValidIPv6 s = true -> 1 <= Regex.occ colon s)
  /\ (isValidIPv6 s = true -> reverseIP s = reverseIPv6 s).
Proof.
  split; [|split; [|split]].
  - destruct (isValidIPv4 s) eqn:H4; [|reflexivity].
    destruct (isValidIPv6 s) eqn:H6; [|reflexivity].
    exfalso. eapply IpFacts.families_disjoint; eassumption.
  - apply IpFacts.isValidIPv4_no_colon.
  - intros H. now apply IpFacts.isValidIPv6_colons.
  - intros H. apply IpFacts.reverseIP_v6; [|exact H].
    now apply IpFacts.isValidIPv6_not_v4.
Qed.

Lemma families_exclusive_witness :
  Regex.occ colon (str "192.168.6.5") = 0
  /\ 1 <= Regex.occ colon (str "::1")
  /\ reverseIP (str "::1") = reverseIPv6 (str "::1").
Proof.
  split; [|split].
  - apply (families_exclusive (str "192.168.6.5")). reflexivity.
  - apply (proj1 (proj2 (proj2 (families_exclusive (str "::1"))))). reflexivity.
  - apply (families_exclusive (str "::1")). reflexivity.
Defined.

(* ------------------------------------------------------------------ *)
(** ** Further properties of the expansion *)

(** X1: in the hexadecimal forms, eight groups of one to four digits
    joined by colons, or at most seven such groups around one [::], a
    string is valid IPv6 and [expandIPv6] returns eight groups of exactly
    four hexadecimal digits: every group left-padded with ['0'], and
    [8 - left - right] groups ["0000"] in the place of [::]. *)
Theorem expandIPv6_hexadecimal_forms :
  (forall gs, length gs = 8 -> group_list gs ->
     isValidIPv6 (join (str ":") gs) = true
     /\ expandIPv6 (join (str ":") gs) = Ok (join (str ":") (map pad4 gs))
     /\ is_expanded (map pad4 gs) = true)
  /\ (forall ls rs,
        group_list ls -> group_list rs -> length ls + length rs <= 7 ->
        let s := join (str ":") ls ++ str "::" ++ join (str ":") rs in
        let groups :=
          map pad4 ls ++ repeat (str "0000") (8 - length ls - length rs)
          ++ map pad4 rs in
        isValidIPv6 s = true
        /\ expandIPv6 s = Ok (join (str ":") groups)
        /\ is_expanded groups = true).
Proof.
  split.
  - intros gs Hlen H. split; [|split].
    + now apply IpFacts.uncompressed_valid.
    + now apply IpFacts.expandIPv6_uncompressed.
    + now apply IpFacts.expanded_uncompressed.
  - intros ls rs Hl Hr Hlen. cbv zeta. split; [|split].
    + now apply IpFacts.compressed_valid.
    + now apply IpFacts.expandIPv6_compressed.
    + now apply IpFacts.expanded_compressed.
Qed.

Lemma expandIPv6_hexadecimal_forms_witness :
  expandIPv6 (str "2001:db8::8a2e:370:7334")
  = Ok (str "2001:0db8:0000:0000:0000:8a2e:0370:7334")
  /\ expandIPv6 (str "1:2:3:4:5:6:7:8")
     = Ok (str "0001:0002:0003:0004:0005:0006:0007:0008").
Proof.
  split.
  - apply (proj2 expandIPv6_hexadecimal_forms
             [str "2001"; str "db8"] [str "8a2e"; str "370"; str "7334"]);
      [repeat constructor | repeat constructor | cbn; lia].
  - apply (proj1 expandIPv6_hexadecimal_forms
             [str "1"; str "2"; str "3"; str "4"; str "5"; str "6"; str "7"; str "8"]);
      [reflexivity | repeat constructor].
Defined.

(** X2: on every valid IPv6 string [expandIPv6] and [reverseIPv6] return
    normally, the number of groups to insert being never negative, and
    [reverseIPv6] returns the pieces of the expansion between colons in
    reverse order, joined by colons. *)
Theorem reverseIPv6_returns (s : jsstring) :
  isValidIPv6 s = true ->
  exists expandedIP,
    expandIPv6 s = Ok expandedIP
    /\ reverseIPv6 s = Ok (join (str ":") (rev (split expandedIP (str ":")))).
Proof.
  intros H. destruct (IpFacts.expandIPv6_ok s) as (e & He).
  - now apply IpFacts.isValidIPv6_colons.
  - exists e. split; [exact He|].
    unfold reverseIPv6. now rewrite H, He.
Qed.

Lemma reverseIPv6_returns_witness :
  exists expandedIP,
    expandIPv6 (str "fe80::1%eth0") = Ok expandedIP
    /\ reverseIPv6 (str "fe80::1%eth0")
       = Ok (join (str ":") (rev (split expandedIP (str ":")))).
Proof. apply (reverseIPv6_returns (str "fe80::1%eth0")). reflexivity. Defined.

(* ------------------------------------------------------------------ *)
(** ** The code units of an address, and trimming *)

Module Alphabet.
Import JS Regex RegexFacts IpUtils.

(** The classes a pattern is written with. *)
Fixpoint ranges_of (r : regex) : list (N * N) :=
  match r with
  | Eps => []
  | Chars cs => cs
  | Seq r1 r2 => ranges_of r1 ++ ranges_of r2
  | Alt r1 r2 => ranges_of r1 ++ ranges_of r2
  | Rep _ _ r' => ranges_of r'
  end.

(** Every range of [cs] lies within a range of [within]. *)
Definition ranges_within (within cs : list (N * N)) : bool :=
  forallb (fun '(lo, hi) =>
             existsb (fun '(lo', hi') => (lo' <=? lo)%N && (hi <=? hi')%N) within)
          cs.

(** The code units that occur in the two address patterns: the percent
    sign, the dot, the digits and the colon, and the letters. *)
Definition address_chars : list (N * N) :=
  [(37, 37); (46, 46); (48, 58); (65, 90); (97, 122)]%N.

Definition is_address_char (c : char) : bool := in_class c address_chars.

Lemma in_class_app c cs ds : in_class c (cs ++ ds) = in_class c cs || in_class c ds.
Proof. unfold in_class. apply existsb_app. Qed.

Lemma iter_Forall (P : jsstring -> Prop) (Q : N -> Prop) :
  (forall s, P s -> Forall Q s) -> forall n s, iter P n s -> Forall Q s.
Proof.
  intros HP. induction n as [|n IH]; intros s H; cbn in H.
  - subst s. constructor.
  - destruct H as (s1 & s2 & -> & H1 & H2). apply Forall_app. auto.
Qed.

Lemma L_ranges r : forall s,
  L r s -> Forall (fun c => in_class c (ranges_of r) = true) s.
Proof.
  induction r as [|cs|r1 IH1 r2 IH2|r1 IH1 r2 IH2|lo hi r IH]; intros s H;
    cbn [L ranges_of] in *.
  - subst s. constructor.
  - destruct H as (c & -> & Hc). repeat constructor. exact Hc.
  - destruct H as (s1 & s2 & -> & H1 & H2). apply Forall_app. split.
    + eapply Forall_impl; [|exact (IH1 _ H1)].
      intros c Hc. cbn beta in *. now rewrite in_class_app, Hc.
    + eapply Forall_impl; [|exact (IH2 _ H2)].
      intros c Hc. cbn beta in *. rewrite in_class_app, Hc. apply orb_true_r.
  - destruct H as [H|H].
    + eapply Forall_impl; [|exact (IH1 _ H)].
      intros c Hc. cbn beta in *. now rewrite in_class_app, Hc.
    + eapply Forall_impl; [|exact (IH2 _ H)].
      intros c Hc. cbn beta in *. rewrite in_class_app, Hc. apply orb_true_r.
  - destruct H as (n & _ & _ & Hi). eapply iter_Forall; [|exact Hi]. exact IH.
Qed.

Lemma in_class_within c within cs :
  ranges_within within cs = true -> in_class c cs = true -> in_class c within = true.
Proof.
  unfold ranges_within, in_class. intros Hall Hc.
  apply existsb_exists in Hc. destruct Hc as ([lo hi] & Hin & Hc).
  rewrite forallb_forall in Hall. specialize (Hall _ Hin). cbn in Hall.
  apply existsb_exists in Hall. destruct Hall as ([lo' hi'] & Hin' & Hw).
  apply existsb_exists. exists (lo', hi'). split; [exact Hin'|].
  apply andb_true_iff in Hc, Hw. destruct Hc as [H1 H2], Hw as [H3 H4].
  apply N.leb_le in H1, H2, H3, H4.
  apply andb_true_iff. split; apply N.leb_le; lia.
Qed.

Lemma test_chars r s :
  ranges_within address_chars (ranges_of r) = true ->
  test r s = true -> Forall (fun c => is_address_char c = true) s.
Proof.
  intros Hr H. apply test_spec in H. apply L_ranges in H.
  eapply Forall_impl; [|exact H]. intros c Hc.
  now apply (in_class_within c address_chars (ranges_of r)).
Qed.

(** A valid address is written with address characters only. *)
Lemma isValidIP_chars s :
  isValidIP s = true -> Forall (fun c => is_address_char c = true) s.
Proof.
  unfold isValidIP, isValidIPv4, isValidIPv6. intros H.
  apply orb_true_iff in H. destruct H as [H|H];
    (eapply test_chars; [|exact H]); vm_compute; reflexivity.
Qed.

Lemma address_char_plain c :
  is_address_char c = true -> isWhiteSpace c = false /\ c <> comma.
Proof.
  unfold is_address_char, address_chars, in_class. cbn [existsb]. intros H.
  repeat rewrite ?orb_true_iff, ?andb_true_iff, ?N.leb_le in H.
  split.
  - destruct (isWhiteSpace c) eqn:E; [|reflexivity]. exfalso.
    unfold isWhiteSpace in E. cbn [existsb] in E.
    repeat rewrite ?orb_true_iff, ?andb_true_iff, ?N.leb_le, ?N.eqb_eq in E.
    lia.
  - unfold comma. lia.
Qed.

Lemma isValidIP_not_nil s : isValidIP s = true -> s <> [].
Proof. intros H ->. discriminate. Qed.

End Alphabet.

Module TrimFacts.
Import JS.

Definition white (w : jsstring) : Prop := Forall (fun c => isWhiteSpace c = true) w.

(** No white space at the start, and none at the end. *)
Definition starts_clean (s : jsstring) : Prop :=
  match s with
  | [] => True
  | c :: _ => isWhiteSpace c = false
  end.

Definition ends_clean (s : jsstring) : Prop := starts_clean (rev s).

Lemma trimStart_clean s : starts_clean s -> trimStart s = s.
Proof. destruct s as [|c s]; [reflexivity|]. cbn. now intros ->. Qed.

Lemma trimStart_white w s : white w -> trimStart (w ++ s) = trimStart s.
Proof.
  induction 1 as [|c w Hc _ IH]; [reflexivity|]. cbn. now rewrite Hc.
Qed.

(** [trimStart] removes a white prefix and leaves a clean start. *)
Lemma trimStart_split s :
  exists w, white w /\ s = w ++ trimStart s /\ starts_clean (trimStart s).
Proof.
  induction s as [|c s (w & Hw & Hs & Hc)].
  - exists []. repeat split. constructor.
  - cbn [trimStart]. destruct (isWhiteSpace c) eqn:E.
    + exists (c :: w). repeat split; [now constructor | | exact Hc].
      cbn. now rewrite <- Hs.
    + exists []. repeat split; [constructor | exact E].
Qed.

Lemma starts_clean_prefix p q : p <> [] -> starts_clean (p ++ q) -> starts_clean p.
Proof. destruct p as [|c p]; [congruence|]. intros _ H. exact H. Qed.

(** What [trim] returns has no white space at either end, and lies
    between two white pieces of its argument. *)
Lemma trim_split s :
  exists w1 w2, white w1 /\ white w2 /\ s = w1 ++ trim s ++ w2
    /\ starts_clean (trim s) /\ ends_clean (trim s).
Proof.
  unfold trim, ends_clean.
  destruct (trimStart_split s) as (w1 & Hw1 & Hs & Hc1).
  destruct (trimStart_split (rev (trimStart s))) as (w2 & Hw2 & Hr & Hc2).
  set (t := trimStart s) in *. set (u := trimStart (rev t)) in *.
  assert (t = rev u ++ rev w2) as Ht.
  { rewrite <- rev_app_distr, <- Hr. now rewrite rev_involutive. }
  exists w1, (rev w2). split; [exact Hw1|]. split.
  { apply Forall_rev. exact Hw2. }
  split; [now rewrite <- Ht|]. split.
  - destruct (rev u) as [|c ru] eqn:E; [exact I|].
    rewrite Ht in Hc1. exact Hc1.
  - now rewrite rev_involutive.
Qed.

(** White space around a string with clean ends is all that [trim]
    removes. *)
Lemma trim_padded w1 s w2 :
  white w1 -> white w2 -> starts_clean s -> ends_clean s ->
  trim (w1 ++ s ++ w2) = s.
Proof.
  intros H1 H2 Hs He. unfold trim.
  rewrite trimStart_white by assumption.
  destruct s as [|c s].
  - cbn [app]. replace (trimStart w2) with (@nil N).
    + reflexivity.
    + rewrite <- (app_nil_r w2). now rewrite trimStart_white.
  - rewrite (trimStart_clean ((c :: s) ++ w2)) by exact Hs.
    rewrite rev_app_distr, trimStart_white by (apply Forall_rev; exact H2).
    rewrite trimStart_clean by exact He. apply rev_involutive.
Qed.

Lemma trim_incl c s : In c (trim s) -> In c s.
Proof.
  intros H. destruct (trim_split s) as (w1 & w2 & _ & _ & Hs & _).
  rewrite Hs. apply in_or_app. right. apply in_or_app. now left.
Qed.

End TrimFacts.

(* ------------------------------------------------------------------ *)
(** ** The shape of valid addresses and of their reversals *)

Module Shape.
Import JS Regex RegexFacts JSFacts IpUtils Spec IpFacts.

(** A string in a hexadecimal form, with the groups of its expansion:
    eight groups joined by colons, or at most seven groups around one
    [::]. *)
Inductive hexadecimal_form : jsstring -> list jsstring -> Prop :=
| hex_full gs :
    length gs = 8 -> group_list gs ->
    hexadecimal_form (join (str ":") gs) (map pad4 gs)
| hex_compressed ls rs :
    group_list ls -> group_list rs -> length ls + length rs <= 7 ->
    hexadecimal_form
      (join (str ":") ls ++ str "::" ++ join (str ":") rs)
      (map pad4 ls ++ repeat (str "0000") (8 - length ls - length rs)
       ++ map pad4 rs).

Lemma hexadecimal_form_expand s groups :
  hexadecimal_form s groups ->
  isValidIPv6 s = true
  /\ expandIPv6 s = Ok (join (str ":") groups)
  /\ is_expanded groups = true.
Proof.
  intros [gs Hlen H | ls rs Hl Hr Hlen].
  - split; [|split].
    + now apply uncompressed_valid.
    + now apply expandIPv6_uncompressed.
    + now apply expanded_uncompressed.
  - split; [|split].
    + now apply compressed_valid.
    + now apply expandIPv6_compressed.
    + now apply expanded_compressed.
Qed.

Lemma hexadecimal_form_reverse s groups :
  hexadecimal_form s groups -> reverseIP s = Ok (join (str ":") (rev groups)).
Proof.
  intros H. apply hexadecimal_form_expand in H. destruct H as (Hv & He & Hx).
  rewrite reverseIP_v6; [|now apply isValidIPv6_not_v4 | exact Hv].
  unfold reverseIPv6. rewrite Hv, He. cbn [negb bind].
  now rewrite expanded_split.
Qed.

Lemma octet_length o : is_octet o = true -> 1 <= length o <= 3.
Proof. unfold is_octet. intros H. bool_to_prop. tauto. Qed.

Lemma octet_dots o : is_octet o = true -> occ dot o = 0.
Proof.
  intros H. apply octet_no_dot in H. unfold occ.
  induction o as [|c o IH]; [reflexivity|].
  cbn [filter]. destruct (N.eqb dot c) eqn:E.
  - apply N.eqb_eq in E. subst c. exfalso. apply H. now left.
  - apply IH. intros Hin. apply H. now right.
Qed.

Lemma length_join4 sep a b c d :
  length (join sep [a; b; c; d])
  = length a + length b + length c + length d + 3 * length sep.
Proof. cbn [join]. rewrite !length_app. lia. Qed.

End Shape.

(** X3: the reversal of a valid IPv4 string is a valid IPv4 string of the
    same length. *)
Theorem reverseIP_ipv4_closed (s : jsstring) :
  isValidIPv4 s = true ->
  exists t, reverseIP s = Ok t /\ isValidIPv4 t = true /\ length t = length s.
Proof.
  intros H. apply IpFacts.isValidIPv4_iff in H.
  destruct H as (a & b & c & d & -> & Ha & Hb & Hc & Hd).
  exists (join (str ".") [d; c; b; a]). split; [|split].
  - now apply IpFacts.reverseIP_octets.
  - apply IpFacts.isValidIPv4_iff. exists d, c, b, a. auto.
  - rewrite !Shape.length_join4. lia.
Qed.

Lemma reverseIP_ipv4_closed_witness :
  exists t, reverseIP (str "10.0.020.255") = Ok t
            /\ isValidIPv4 t = true /\ length t = length (str "10.0.020.255").
Proof. apply (reverseIP_ipv4_closed (str "10.0.020.255")). reflexivity. Defined.

(** X4: the reversal of a string in a hexadecimal form is the groups of
    its expansion in reverse order, joined by colons: a fully expanded,
    valid IPv6 string. *)
Theorem reverseIP_hexadecimal_form (s : jsstring) (groups : list jsstring) :
  Shape.hexadecimal_form s groups ->
  reverseIP s = Ok (join (str ":") (rev groups))
  /\ is_expanded (rev groups) = true
  /\ isValidIPv6 (join (str ":") (rev groups)) = true.
Proof.
  intros H. split; [now apply Shape.hexadecimal_form_reverse|].
  apply Shape.hexadecimal_form_expand in H. destruct H as (_ & _ & Hx).
  split.
  - now apply IpFacts.expanded_rev.
  - apply IpFacts.expanded_valid. now apply IpFacts.expanded_rev.
Qed.

Lemma reverseIP_hexadecimal_form_witness :
  reverseIP (str "2001:db8::1")
  = Ok (str "0001:0000:0000:0000:0000:0000:0db8:2001")
  /\ is_expanded (map str ["0001"; "0000"; "0000"; "0000"; "0000"; "0000"; "0db8"; "2001"])
     = true
  /\ isValidIPv6 (str "0001:0000:0000:0000:0000:0000:0db8:2001") = true.
Proof.
  apply (reverseIP_hexadecimal_form (str "2001:db8::1")
           (map str ["2001"; "0db8"; "0000"; "0000"; "0000"; "0000"; "0000"; "0001"])).
  apply (Shape.hex_compressed [str "2001"; str "db8"] [str "1"]);
    [repeat constructor | repeat constructor | cbn; lia].
Defined.

(** X5: on a string in a hexadecimal form, reversing twice gives the
    expansion, and expanding an expansion changes nothing. *)
Theorem reverseIP_twice_expands (s : jsstring) (groups : list jsstring) :
  Shape.hexadecimal_form s groups ->
  bind (reverseIP s) reverseIP = expandIPv6 s
  /\ bind (expandIPv6 s) expandIPv6 = expandIPv6 s.
Proof.
  intros H. pose proof (Shape.hexadecimal_form_reverse s groups H) as Hr.
  apply Shape.hexadecimal_form_expand in H. destruct H as (_ & He & Hx).
  rewrite Hr, He. cbn [bind]. split.
  - rewrite IpFacts.reverseIP_expanded by now apply IpFacts.expanded_rev.
    now rewrite rev_involutive.
  - now apply IpFacts.expandIPv6_expanded.
Qed.

Lemma reverseIP_twice_expands_witness :
  bind (reverseIP (str "::1")) reverseIP = expandIPv6 (str "::1")
  /\ bind (expandIPv6 (str "::1")) expandIPv6 = expandIPv6 (str "::1").
Proof.
  apply (reverseIP_twice_expands (str "::1")
           (map str ["0000"; "0000"; "0000"; "0000"; "0000"; "0000"; "0000"; "0001"])).
  apply (Shape.hex_compressed [] [str "1"]);
    [repeat constructor | repeat constructor | cbn; lia].
Defined.

(** X6: a valid address is not empty and is written with the percent
    sign, the dot, the colon, digits and letters only, so it holds no
    white space and no comma and [trim] leaves it as it is; a valid IPv4
    string has between 7 and 15 code units and exactly three dots; a valid
    IPv6 string has between one and eight colons. *)
Theorem valid_address_shape (s : jsstring) :
  (isValidIP s = true ->
   s <> []
   /\ Forall (fun c => Alphabet.is_address_char c = true) s
   /\ ~ In comma s
   /\ trim s = s)
  /\ (isValidIPv4 s = true -> 7 <= length s <= 15 /\ Regex.occ dot s = 3)
  /\ (isValidIPv6 s = true -> 1 <= Regex.occ colon s <= 8).
Proof.
  split; [|split].
  - intros H. pose proof (Alphabet.isValidIP_chars s H) as Hc.
    split; [now apply Alphabet.isValidIP_not_nil|]. split; [exact Hc|].
    rewrite Forall_forall in Hc. split.
    + intros Hin. apply Hc, Alphabet.address_char_plain in Hin. tauto.
    + rewrite <- (app_nil_r s) at 1. rewrite <- (app_nil_l (s ++ [])).
      apply TrimFacts.trim_padded; try constructor.
      * destruct s as [|c s]; [exact I|].
        apply (Alphabet.address_char_plain c), Hc. now left.
      * unfold TrimFacts.ends_clean. destruct (rev s) as [|c r] eqn:E; [exact I|].
        apply (Alphabet.address_char_plain c), Hc, in_rev. rewrite E. now left.
  - intros H. apply IpFacts.isValidIPv4_iff in H.
    destruct H as (a & b & c & d & -> & Ha & Hb & Hc & Hd).
    split.
    + rewrite Shape.length_join4.
      pose proof (Shape.octet_length a Ha). pose proof (Shape.octet_length b Hb).
      pose proof (Shape.octet_length c Hc). pose proof (Shape.octet_length d Hd).
      cbn [length str map list_ascii_of_string]. lia.
    + cbn [join]. rewrite !RegexFacts.occ_app.
      rewrite (Shape.octet_dots a Ha), (Shape.octet_dots b Hb),
        (Shape.octet_dots c Hc), (Shape.octet_dots d Hd).
      reflexivity.
  - apply IpFacts.isValidIPv6_colons.
Qed.

Lemma valid_address_shape_witness :
  trim (str "fe80::1%eth0") = str "fe80::1%eth0"
  /\ Regex.occ dot (str "192.168.6.5") = 3
  /\ 1 <= Regex.occ colon (str "::1") <= 8.
Proof.
  split; [|split].
  - apply (proj1 (valid_address_shape (str "fe80::1%eth0"))). reflexivity.
  - apply (proj1 (proj2 (valid_address_shape (str "192.168.6.5")))). reflexivity.
  - apply (proj2 (proj2 (valid_address_shape (str "::1")))). reflexivity.
Defined.

(* ------------------------------------------------------------------ *)
(** ** The forwarded header *)

Module ForwardedFacts.
Import JS IpUtils Spec TrimFacts.

Lemma before_free c s : ~ In c (before c s).
Proof.
  induction s as [|x s IH]; [intros []|].
  cbn [before]. destruct (N.eqb c x) eqn:E; [intros []|].
  intros [->|Hin]; [|now apply IH].
  now rewrite N.eqb_refl in E.
Qed.

Lemma before_none c p : ~ In c p -> before c p = p.
Proof.
  induction p as [|x p IH]; intros Hc; [reflexivity|].
  cbn [before]. destruct (N.eqb c x) eqn:E.
  - apply N.eqb_eq in E. subst x. exfalso. apply Hc. now left.
  - f_equal. apply IH. intros Hin. apply Hc. now right.
Qed.

Lemma before_app c p t : ~ In c p -> before c (p ++ c :: t) = p.
Proof.
  induction p as [|x p IH]; intros Hc.
  - cbn. now rewrite N.eqb_refl.
  - cbn [app before]. destruct (N.eqb c x) eqn:E.
    + apply N.eqb_eq in E. subst x. exfalso. apply Hc. now left.
    + f_equal. apply IH. intros Hin. apply Hc. now right.
Qed.

Lemma white_no_comma w : white w -> ~ In comma w.
Proof.
  intros Hw Hin. unfold white in Hw. rewrite Forall_forall in Hw.
  specialize (Hw _ Hin). discriminate.
Qed.

Lemma truthy_Some s : s <> [] -> truthy (Some s) = true.
Proof. destruct s; [congruence | reflexivity]. Qed.

(** The address taken from a forwarded value. *)
Lemma extractClientIP_forwarded f realIP conn sock :
  f <> [] ->
  extractClientIP
    {| headers := {| x_forwarded_for := Some f; x_real_ip := realIP |};
       connection := conn; socket := sock |}
  = trim (before comma f).
Proof.
  intros Hf. rewrite IpFacts.extractClientIP_cases. cbv zeta.
  cbn [headers x_forwarded_for]. now rewrite truthy_Some.
Qed.

(** Padded by white space and followed or not by further entries, a
    string with clean ends and no comma is what the first entry gives. *)
Lemma first_entry w1 s w2 :
  white w1 -> white w2 -> ~ In comma s -> starts_clean s -> ends_clean s ->
  trim (before comma (w1 ++ s ++ w2)) = s
  /\ forall rest, trim (before comma (w1 ++ s ++ w2 ++ comma :: rest)) = s.
Proof.
  intros H1 H2 Hc Hs He.
  assert (~ In comma (w1 ++ s ++ w2)) as Hfree.
  { intros Hin. apply in_app_or in Hin. destruct Hin as [Hin|Hin].
    - now apply (white_no_comma w1).
    - apply in_app_or in Hin. destruct Hin as [Hin|Hin]; [now apply Hc|].
      now apply (white_no_comma w2). }
  split.
  - rewrite before_none by exact Hfree. now apply trim_padded.
  - intros rest.
    replace (w1 ++ s ++ w2 ++ comma :: rest) with ((w1 ++ s ++ w2) ++ comma :: rest)
      by now rewrite <- !app_assoc.
    rewrite before_app by exact Hfree. now apply trim_padded.
Qed.

End ForwardedFacts.

(** X7: when the forwarded header counts, the address [extractClientIP]
    returns holds no comma and has no white space at its start or at its
    end. *)
Theorem extractClientIP_forwarded_clean (req : Request) :
  truthy (x_forwarded_for (headers req)) = true ->
  ~ In comma (extractClientIP req)
  /\ TrimFacts.starts_clean (extractClientIP req)
  /\ TrimFacts.ends_clean (extractClientIP req).
Proof.
  intros H. rewrite IpFacts.extractClientIP_cases. cbv zeta. rewrite H.
  destruct (TrimFacts.trim_split (before comma (the (x_forwarded_for (headers req)))))
    as (w1 & w2 & _ & _ & _ & Hs & He).
  split; [|split; assumption].
  intros Hin. apply TrimFacts.trim_incl in Hin.
  now apply ForwardedFacts.before_free in Hin.
Qed.

Lemma extractClientIP_forwarded_clean_witness :
  ~ In comma (extractClientIP (request (Some (str " 10.0.20.21 , 5.5.5.5")) None None))
  /\ TrimFacts.starts_clean
       (extractClientIP (request (Some (str " 10.0.20.21 , 5.5.5.5")) None None))
  /\ TrimFacts.ends_clean
       (extractClientIP (request (Some (str " 10.0.20.21 , 5.5.5.5")) None None)).
Proof.
  apply (extractClientIP_forwarded_clean
           (request (Some (str " 10.0.20.21 , 5.5.5.5")) None None)).
  reflexivity.
Defined.

(** X8: a valid address that stands first in the forwarded header, with
    white space around it or not and further entries after a comma or
    not, is extracted exactly, whatever the real-ip header and the
    connection hold. *)
Theorem extractClientIP_first_forwarded
    (s w1 w2 : jsstring) (realIP : option jsstring) (conn sock : option Socket) :
  isValidIP s = true -> TrimFacts.white w1 -> TrimFacts.white w2 ->
  extractClientIP
    {| headers := {| x_forwarded_for := Some (w1 ++ s ++ w2); x_real_ip := realIP |};
       connection := conn; socket := sock |} = s
  /\ forall rest,
       extractClientIP
         {| headers := {| x_forwarded_for := Some (w1 ++ s ++ w2 ++ comma :: rest);
                          x_real_ip := realIP |};
            connection := conn; socket := sock |} = s.
Proof.
  intros Hv H1 H2.
  pose proof (Alphabet.isValidIP_chars s Hv) as Hc. rewrite Forall_forall in Hc.
  pose proof (Alphabet.isValidIP_not_nil s Hv) as Hne.
  assert (~ In comma s) as Hcomma.
  { intros Hin. apply Hc, Alphabet.address_char_plain in Hin. tauto. }
  assert (TrimFacts.starts_clean s) as Hs.
  { destruct s as [|c s]; [exact I|].
    apply (Alphabet.address_char_plain c), Hc. now left. }
  assert (TrimFacts.ends_clean s) as He.
  { unfold TrimFacts.ends_clean. destruct (rev s) as [|c r] eqn:E; [exact I|].
    apply (Alphabet.address_char_plain c), Hc, in_rev. rewrite E. now left. }
  destruct (ForwardedFacts.first_entry w1 s w2 H1 H2 Hcomma Hs He) as [Hone Hmany].
  split.
  - rewrite ForwardedFacts.extractClientIP_forwarded; [exact Hone|].
    intros E. apply (f_equal (@length _)) in E. rewrite !length_app in E.
    destruct s; [congruence | cbn in E; lia].
  - intros rest. rewrite ForwardedFacts.extractClientIP_forwarded; [apply Hmany|].
    intros E. apply (f_equal (@length _)) in E. rewrite !length_app in E.
    destruct s; [congruence | cbn in E; lia].
Qed.

Lemma extractClientIP_first_forwarded_witness :
  extractClientIP (request (Some (str " 2001:db8::1 , 10.0.0.1")) None None)
  = str "2001:db8::1".
Proof.
  refine (proj2 (extractClientIP_first_forwarded
                   (str "2001:db8::1") (str " ") (str " ") None
                   (Some {| remoteAddress := None |}) None _ _ _)
                (str " 10.0.0.1")).
  - reflexivity.
  - repeat constructor.
  - repeat constructor.
Defined.

(* ------------------------------------------------------------------ *)
(** ** The callers: [IPService.reverseAndStore] and the two handlers of
       [IPController] that reverse an address

    The database is the one effect of these functions.  Each of them
    awaits [prisma.reversedIP.create] at most once, and what the database
    answers to that call, a stored row or an exception, is the parameter
    [create].  Dates are the numbers they hold. *)

Module IpService.
Import JS IpUtils.

(** The request as the service and the controller read it: what
    [extractClientIP] reads, the [user-agent] header and the [ip] of the
    body. *)
Record HttpRequest : Type := {
  base : Request;
  user_agent : option jsstring;
  body_ip : option jsstring
}.

(** The [data] of [prisma.reversedIP.create]. *)
Record NewEntry : Type := {
  originalIP : jsstring;
  reversedIP : jsstring;
  requestIP : jsstring;
  userAgent : option jsstring
}.

(** The selected columns of the stored row; the code takes [requestIP]
    to be nullable. *)
Record Row : Type := {
  row_id : jsstring;
  row_originalIP : jsstring;
  row_reversedIP : jsstring;
  row_requestIP : option jsstring;
  row_userAgent : option jsstring;
  row_createdAt : N;
  row_timestamp : N
}.

(** [v || null] *)
Definition or_null (v : option jsstring) : option jsstring :=
  if truthy v then v else None.

(** [if (result.requestIP === null) result.requestIP = 'unknown'] *)
Definition requestIP_never_null (result : Row) : Row :=
  match row_requestIP result with
  | None =>
      {| row_id := row_id result;
         row_originalIP := row_originalIP result;
         row_reversedIP := row_reversedIP result;
         row_requestIP := Some (str "unknown");
         row_userAgent := row_userAgent result;
         row_createdAt := row_createdAt result;
         row_timestamp := row_timestamp result |}
  | Some _ => result
  end.

Section Database.
Variable create : NewEntry -> result Row.

Definition reverseAndStore (originalIP' : jsstring) (req : HttpRequest) : result Row :=
  bind (reverseIP originalIP') (fun reversedIP' =>
  let requestIP' :=
    the (or_else (Some (normalizeIP (extractClientIP (base req))))
                 (Some (str "unknown"))) in
  let userAgent' := or_null (user_agent req) in
  bind (create {| originalIP := originalIP';
                  reversedIP := reversedIP';
                  requestIP := requestIP';
                  userAgent := userAgent' |})
       (fun result => Ok (requestIP_never_null result))).

End Database.

End IpService.

Module IPController.
Import JS IpUtils IpService.

(** The [data] of a success response. *)
Record ResponseData : Type := {
  id : jsstring;
  originalIP : jsstring;
  reversedIP : jsstring;
  requestIP : option jsstring;
  timestamp : N
}.

(** [res.status(status).json(...)]: an error with its code, or a success
    with its data. *)
Inductive answer : Type :=
| Failure (status : nat) (code : string)
| Success (status : nat) (data : ResponseData).

Definition data_of (result : Row) : ResponseData :=
  {| id := row_id result;
     originalIP := row_originalIP result;
     reversedIP := row_reversedIP result;
     requestIP := row_requestIP result;
     timestamp := row_timestamp result |}.

(** [a === b] on strings. *)
Fixpoint strict_equal (a b : jsstring) : bool :=
  match a, b with
  | [], [] => true
  | x :: a', y :: b' => N.eqb x y && strict_equal a' b'
  | _, _ => false
  end.

Section Database.
Variable create : NewEntry -> result Row.

(** [POST /api/ip/reverse] *)
Definition reverseIP (req : HttpRequest) : answer :=
  let ip := body_ip req in
  if negb (truthy ip) then Failure 400 "MISSING_IP"
  else if negb (isValidIP (the ip)) then Failure 400 "INVALID_IP"
  else
    match reverseAndStore create (the ip) req with
    | Ok result => Success 201 (data_of result)
    | Throw _ => Failure 500 "INTERNAL_ERROR"
    end.

(** [GET /api/ip/my-ip] *)
Definition getMyIP (req : HttpRequest) : answer :=
  let clientIP := extractClientIP (base req) in
  if negb (truthy (Some clientIP)) || strict_equal clientIP (str "unknown")
  then Failure 400 "IP_DETECTION_FAILED"
  else if negb (isValidIP clientIP) then Failure 400 "INVALID_DETECTED_IP"
  else
    match reverseAndStore create clientIP req with
    | Ok result => Success 200 (data_of result)
    | Throw _ => Failure 500 "INTERNAL_ERROR"
    end.

End Database.

End IPController.

(** The form of the browser: [validateIP] of [IPReverser]. *)
Module Frontend.
Import Regex IpUtils.

(** The three alternatives of the form's [ipv6Regex], each between its
    own [^] and [$]. *)
Definition ipv6Regex : regex :=
  alt (Seq (Rep 7 (Some 7) h16_colon) h16) [lit "::1"; lit "::"].

(** The form's [ipv4Regex] is the pattern of [isValidIPv4], character for
    character. *)
Definition validateIP (ip : jsstring) : bool :=
  test ipv4Regex ip || test ipv6Regex ip.

End Frontend.

Module CallerFacts.
Import JS Regex RegexFacts JSFacts IpUtils Spec IpFacts IpService.

Lemma reverseIP_Ok_valid s out : IpUtils.reverseIP s = Ok out -> isValidIP s = true.
Proof.
  intros H. destruct (isValidIP s) eqn:E; [reflexivity|].
  rewrite (reverseIP_invalid s E) in H. discriminate.
Qed.

Lemma strict_equal_eq a : forall b, IPController.strict_equal a b = true <-> a = b.
Proof.
  induction a as [|x a IH]; intros [|y b]; cbn; split; try congruence.
  - rewrite andb_true_iff, N.eqb_eq, IH. intros [-> ->]. reflexivity.
  - intros E. injection E as -> ->. rewrite N.eqb_refl. now apply IH.
Qed.

Lemma occ_zero c s : occ c s = 0 -> ~ In c s.
Proof.
  induction s as [|x s IH]; [intros _ []|].
  rewrite occ_cons. destruct (N.eqb c x) eqn:E; [discriminate|].
  intros H [->|Hin]; [now rewrite N.eqb_refl in E | now apply IH].
Qed.

Lemma startsWith_head s c p : startsWith s (c :: p) = true -> In c s.
Proof.
  destruct s as [|x s]; [discriminate|]. cbn.
  intros H. apply andb_true_iff in H. destruct H as [H _].
  apply N.eqb_eq in H. now left.
Qed.

(** A valid IPv4 string has no mapped prefix to lose. *)
Lemma normalizeIP_v4 v : isValidIPv4 v = true -> normalizeIP v = v.
Proof.
  intros H. unfold normalizeIP.
  destruct (startsWith v (str "::ffff:")) eqn:E; [|reflexivity].
  apply startsWith_head in E. apply isValidIPv4_no_colon, occ_zero in H.
  contradiction.
Qed.

(** What the service makes of the client address. *)
Definition requestIP_of (req : HttpRequest) : jsstring :=
  the (or_else (Some (normalizeIP (extractClientIP (base req))))
               (Some (str "unknown"))).

Lemma requestIP_of_cases req :
  requestIP_of req <> []
  /\ (requestIP_of req = normalizeIP (extractClientIP (base req))
      \/ normalizeIP (extractClientIP (base req)) = []
         /\ requestIP_of req = str "unknown").
Proof.
  unfold requestIP_of, or_else.
  destruct (normalizeIP (extractClientIP (base req))) as [|c s]; cbn.
  - split; [discriminate | now right].
  - split; [discriminate | now left].
Qed.

Lemma or_null_not_empty v : or_null v <> Some [].
Proof. unfold or_null. destruct v as [[|c s]|]; cbn; congruence. Qed.

Lemma requestIP_never_null_spec row :
  row_requestIP (requestIP_never_null row) <> None.
Proof.
  unfold requestIP_never_null. destruct (row_requestIP row) eqn:E; cbn.
  - now rewrite E.
  - discriminate.
Qed.

(** The one way [reverseAndStore] returns a row. *)
Lemma reverseAndStore_Ok create o req row :
  reverseAndStore create o req = Ok row ->
  exists reversed stored,
    IpUtils.reverseIP o = Ok reversed
    /\ create {| originalIP := o; reversedIP := reversed;
                 requestIP := requestIP_of req;
                 userAgent := or_null (user_agent req) |} = Ok stored
    /\ row = requestIP_never_null stored.
Proof.
  unfold reverseAndStore. intros H.
  destruct (IpUtils.reverseIP o) as [reversed|e] eqn:Hr; [|discriminate].
  cbn [bind] in H. fold (requestIP_of req) in H.
  destruct (create _) as [stored|e] eqn:Hc; [|discriminate].
  cbn [bind] in H. injection H as <-. now exists reversed, stored.
Qed.

(** The one way it throws on a valid address. *)
Lemma reverseAndStore_Throw create o req err :
  isValidIP o = true ->
  reverseAndStore create o req = Throw err ->
  exists reversed,
    IpUtils.reverseIP o = Ok reversed
    /\ create {| originalIP := o; reversedIP := reversed;
                 requestIP := requestIP_of req;
                 userAgent := or_null (user_agent req) |} = Throw err.
Proof.
  intros Hv. destruct (reverseIP_ok o Hv) as (reversed & Hr).
  unfold reverseAndStore. rewrite Hr. cbn [bind]. fold (requestIP_of req).
  destruct (create _) as [stored|e] eqn:Hc; [discriminate|].
  cbn [bind]. intros H. injection H as <-. now exists reversed.
Qed.

(** *** The form of the browser *)

Lemma h16_group g : L h16 g <-> is_group g = true.
Proof.
  rewrite <- test_spec. unfold test, is_group, is_hex. norm h16.
  destruct g as [|c1 [|c2 [|c3 [|c4 [|c5 g]]]]]; run_matcher;
    cbn [length] in *; split; intros; try lia; try tauto.
Qed.

Lemma iter_h16_colon_inv n : forall s,
  iter (L h16_colon) n s ->
  exists gs, length gs = n /\ group_list gs
             /\ s = concat (map (fun g => g ++ [colon]) gs).
Proof.
  induction n as [|n IH]; intros s H; cbn [iter] in H.
  - subst s. exists []. repeat split. constructor.
  - destruct H as (s1 & s2 & -> & (g & p & -> & Hg & Hp) & H2).
    apply L_chr in Hp. subst p. apply h16_group in Hg.
    destruct (IH _ H2) as (gs & Hlen & Hall & ->).
    exists (g :: gs). repeat split; [cbn; lia | now constructor].
Qed.

Lemma eight_groups s :
  L (Seq (Rep 7 (Some 7) h16_colon) h16) s <->
  exists gs, length gs = 8 /\ group_list gs /\ s = join (str ":") gs.
Proof.
  cbn [L]. split.
  - intros (s1 & g8 & -> & (n & Hlo & Hhi & Hi) & Hg8).
    cbn in Hhi. assert (n = 7) by lia. subst n.
    apply h16_group in Hg8.
    destruct (iter_h16_colon_inv _ _ Hi) as (gs & Hlen & Hall & ->).
    exists (gs ++ [g8]). split; [rewrite length_app; cbn; lia|].
    split; [apply Forall_app; split; [exact Hall | now constructor]|].
    destruct gs as [|g gs]; [discriminate|].
    change (str ":") with [colon]. now rewrite join_snoc, join_colon_end.
  - intros (gs & Hlen & Hall & ->).
    destruct (exists_last (l := gs)) as (front & g8 & ->); [intros ->; discriminate|].
    rewrite length_app in Hlen. cbn in Hlen.
    apply Forall_app in Hall. destruct Hall as [Hfront Hlast].
    apply Forall_cons_iff in Hlast. destruct Hlast as [Hg8 _].
    destruct front as [|g front]; [discriminate|].
    exists (join [colon] (g :: front) ++ [colon]), g8.
    split; [apply join_snoc|]. split; [|now apply h16_group].
    exists 7. split; [lia|]. split; [cbn; lia|].
    rewrite join_colon_end. replace 7 with (length (g :: front)) by lia.
    now apply iter_h16_colon.
Qed.

Lemma L_loopback s : L (lit "::1") s <-> s = str "::1".
Proof.
  cbn [lit L]. split.
  - intros (a & t & -> & Ha & b & c & -> & Hb & Hc).
    apply L_chr in Ha, Hb, Hc. now subst.
  - intros ->. exists (str ":"), (str ":1"). repeat split; [now apply L_chr|].
    exists (str ":"), (str "1"). repeat split; now apply L_chr.
Qed.

Lemma L_unspecified s : L (lit "::") s <-> s = str "::".
Proof.
  cbn [lit L]. split.
  - intros (a & b & -> & Ha & Hb). apply L_chr in Ha, Hb. now subst.
  - intros ->. exists (str ":"), (str ":"). repeat split; now apply L_chr.
Qed.

Lemma frontend_ipv6 s :
  test Frontend.ipv6Regex s = true <->
  (exists gs, length gs = 8 /\ group_list gs /\ s = join (str ":") gs)
  \/ s = str "::1" \/ s = str "::".
Proof.
  rewrite test_spec. unfold Frontend.ipv6Regex. cbn [alt].
  change (L (Alt ?a (Alt ?b ?c)) s) with (L a s \/ L b s \/ L c s).
  now rewrite eight_groups, L_loopback, L_unspecified.
Qed.

End CallerFacts.

(** X9: [reverseAndStore] throws on an invalid address whatever the
    database would answer; when it returns a row, the database has been
    given the address itself, its reversal, a request address that is not
    empty (the normalized client address, or ["unknown"] when that one is
    empty) and a user agent that is not the empty string, and the
    request address of the row returned is not null. *)
Theorem reverseAndStore_entry
    (create : IpService.NewEntry -> result IpService.Row)
    (address : jsstring) (req : IpService.HttpRequest) :
  (isValidIP address = false ->
   IpService.reverseAndStore create address req
   = Throw (Error "Invalid IP address format"))
  /\ (forall row,
        IpService.reverseAndStore create address req = Ok row ->
        IpService.row_requestIP row <> None
        /\ exists entry stored,
             create entry = Ok stored
             /\ row = IpService.requestIP_never_null stored
             /\ IpService.originalIP entry = address
             /\ reverseIP address = Ok (IpService.reversedIP entry)
             /\ IpService.requestIP entry <> []
             /\ (IpService.requestIP entry
                 = normalizeIP (extractClientIP (IpService.base req))
                 \/ normalizeIP (extractClientIP (IpService.base req)) = []
                    /\ IpService.requestIP entry = str "unknown")
             /\ IpService.userAgent entry <> Some []).
Proof.
  split.
  - intros H. unfold IpService.reverseAndStore.
    now rewrite (IpFacts.reverseIP_invalid address H).
  - intros row H.
    destruct (CallerFacts.reverseAndStore_Ok create address req row H)
      as (reversed & stored & Hr & Hc & ->).
    split; [apply CallerFacts.requestIP_never_null_spec|].
    destruct (CallerFacts.requestIP_of_cases req) as [Hne Hcases].
    eexists. exists stored. split; [exact Hc|]. cbn.
    repeat split; try assumption.
    apply CallerFacts.or_null_not_empty.
Qed.

(** A database that stores what it is given, under the key ["k"]. *)
Definition echo (entry : IpService.NewEntry) : result IpService.Row :=
  Ok {| IpService.row_id := str "k";
        IpService.row_originalIP := IpService.originalIP entry;
        IpService.row_reversedIP := IpService.reversedIP entry;
        IpService.row_requestIP := Some (IpService.requestIP entry);
        IpService.row_userAgent := IpService.userAgent entry;
        IpService.row_createdAt := 0%N;
        IpService.row_timestamp := 0%N |}.

(** A request whose only address is that of the connection. *)
Definition from_connection (remote : jsstring) (agent ip : option jsstring)
  : IpService.HttpRequest :=
  {| IpService.base :=
       {| headers := {| x_forwarded_for := None; x_real_ip := None |};
          connection := Some {| remoteAddress := Some remote |};
          socket := None |};
     IpService.user_agent := agent;
     IpService.body_ip := ip |}.

Lemma reverseAndStore_entry_witness :
  IpService.reverseAndStore echo (str "1.2.3")
    (from_connection (str "10.0.0.1") None None)
  = Throw (Error "Invalid IP address format").
Proof.
  apply (reverseAndStore_entry echo (str "1.2.3")
           (from_connection (str "10.0.0.1") None None)).
  reflexivity.
Defined.



Lemma extractClientIP_from_connection remote agent ip :
  remote <> [] ->
  extractClientIP (IpService.base (from_connection remote agent ip))
  = strip_mapped_prefix remote.
Proof.
  intros Hne. rewrite IpFacts.extractClientIP_cases. cbv zeta.
  unfold connectionAddress, from_connection, or_else.
  cbn [IpService.base headers x_forwarded_for x_real_ip connection socket
       remoteAddress_of remoteAddress].
  destruct remote as [|c remote]; [congruence|]. reflexivity.
Qed.

(** X11: the handler of [GET /api/ip/my-ip] answers 400
    [IP_DETECTION_FAILED] exactly when the extracted address is empty or
    ["unknown"]; an answer of 500 comes from the database alone; and a
    client that connects from the IPv4-mapped address [::ffff:v], [v] a
    valid IPv4 string, with no forwarding header, has [v] stored as the
    original and as the request address, with the reversal of [v]. *)
Theorem getMyIP_answers
    (create : IpService.NewEntry -> result IpService.Row) :
  (forall req,
     IPController.getMyIP create req = IPController.Failure 400 "IP_DETECTION_FAILED"
     <-> extractClientIP (IpService.base req) = []
         \/ extractClientIP (IpService.base req) = str "unknown")
  /\ (forall req code,
        IPController.getMyIP create req = IPController.Failure 500 code ->
        exists entry err,
          create entry = Throw err
          /\ IpService.originalIP entry = extractClientIP (IpService.base req)
          /\ reverseIP (extractClientIP (IpService.base req))
             = Ok (IpService.reversedIP entry))
  /\ (forall v agent ip,
        isValidIPv4 v = true ->
        IPController.getMyIP create (from_connection (str "::ffff:" ++ v) agent ip)
        = match create {| IpService.originalIP := v;
                          IpService.reversedIP :=
                            join (str ".") (rev (split v (str ".")));
                          IpService.requestIP := v;
                          IpService.userAgent := IpService.or_null agent |} with
          | Ok stored =>
              IPController.Success 200
                (IPController.data_of (IpService.requestIP_never_null stored))
          | Throw _ => IPController.Failure 500 "INTERNAL_ERROR"
          end).
Proof.
  split; [|split].
  - intros req. unfold IPController.getMyIP. cbv zeta.
    set (c := extractClientIP (IpService.base req)).
    destruct c as [|x c'] eqn:Ec.
    + cbn. split; [now left | reflexivity].
    + cbn [truthy negb orb].
      destruct (IPController.strict_equal (x :: c') (str "unknown")) eqn:Eu.
      * apply CallerFacts.strict_equal_eq in Eu. split; [now right | reflexivity].
      * assert (x :: c' <> str "unknown") as Hne.
        { intros E. apply CallerFacts.strict_equal_eq in E. congruence. }
        split.
        -- destruct (isValidIP (x :: c')); cbn [negb]; [|discriminate].
           destruct (IpService.reverseAndStore _ _ _); discriminate.
        -- intros [E|E]; [discriminate | contradiction].
  - intros req code. unfold IPController.getMyIP. cbv zeta.
    set (c := extractClientIP (IpService.base req)).
    destruct (negb (truthy (Some c)) || IPController.strict_equal c (str "unknown"));
      [discriminate|].
    destruct (isValidIP c) eqn:Hv; cbn [negb]; [|discriminate].
    destruct (IpService.reverseAndStore create c req) as [row|err] eqn:Hs;
      [discriminate|].
    intros _. apply CallerFacts.reverseAndStore_Throw in Hs; [|exact Hv].
    destruct Hs as (reversed & Hr & Hc).
    eexists. exists err. split; [exact Hc|]. cbn. auto.
  - intros v agent ip Hv.
    assert (extractClientIP (IpService.base (from_connection (str "::ffff:" ++ v) agent ip))
            = v) as Hx.
    { rewrite extractClientIP_from_connection by discriminate.
      unfold strip_mapped_prefix. now rewrite JSFacts.startsWith_prefix. }
    assert (v <> []) as Hne by (intros ->; discriminate).
    assert (isValidIP v = true) as Hvalid by (unfold isValidIP; now rewrite Hv).
    unfold IPController.getMyIP. cbv zeta. rewrite Hx.
    assert (IPController.strict_equal v (str "unknown") = false) as ->.
    { destruct (IPController.strict_equal v (str "unknown")) eqn:E; [|reflexivity].
      apply CallerFacts.strict_equal_eq in E. subst v. discriminate. }
    rewrite ForwardedFacts.truthy_Some by exact Hne. rewrite Hvalid. cbn [negb orb].
    unfold IpService.reverseAndStore. rewrite Hx.
    rewrite IpFacts.reverseIP_v4 by exact Hv.
    unfold reverseIPv4. rewrite Hv. cbn [negb bind].
    rewrite CallerFacts.normalizeIP_v4 by exact Hv.
    replace (the (or_else (Some v) (Some (str "unknown")))) with v.
    + cbn [IpService.user_agent from_connection].
      destruct (create _); reflexivity.
    + unfold or_else. now rewrite ForwardedFacts.truthy_Some.
Qed.

Lemma getMyIP_answers_witness :
  IPController.getMyIP echo (from_connection (str "::ffff:192.168.1.1") None None)
  = IPController.Success 200
      {| IPController.id := str "k";
         IPController.originalIP := str "192.168.1.1";
         IPController.reversedIP := str "1.1.168.192";
         IPController.requestIP := Some (str "192.168.1.1");
         IPController.timestamp := 0%N |}.
Proof.
  apply (proj2 (proj2 (getMyIP_answers echo)) (str "192.168.1.1") None None).
  reflexivity.
Defined.

(** X12: whatever the form of the browser accepts, the server accepts
    and reverses: [validateIP] implies [isValidIP].  For IPv6 the form
    accepts the eight-group form, ["::1"] and ["::"] and nothing else, so
    it refuses compressed addresses that the server accepts, such as
    ["1::"]. *)
Theorem validateIP_within_isValidIP :
  (forall s, Frontend.validateIP s = true ->
     isValidIP s = true /\ exists out, reverseIP s = Ok out)
  /\ (forall s,
        Regex.test Frontend.ipv6Regex s = true <->
        (exists gs, length gs = 8 /\ group_list gs /\ s = join (str ":") gs)
        \/ s = str "::1" \/ s = str "::")
  /\ isValidIP (str "1::") = true
  /\ Frontend.validateIP (str "1::") = false.
Proof.
  split; [|split; [exact CallerFacts.frontend_ipv6 | split; reflexivity]].
  intros s H.
  assert (isValidIP s = true) as Hv.
  { unfold Frontend.validateIP in H. unfold isValidIP.
    apply orb_true_iff in H. apply orb_true_iff.
    destruct H as [H|H]; [now left | right].
    apply CallerFacts.frontend_ipv6 in H.
    destruct H as [(gs & Hlen & Hall & ->) | [-> | ->]].
    - now apply IpFacts.uncompressed_valid.
    - reflexivity.
    - reflexivity. }
  split; [exact Hv | now apply IpFacts.reverseIP_ok].
Qed.

Lemma validateIP_within_isValidIP_witness :
  isValidIP (str "2001:db8:0:0:0:0:0:1") = true
  /\ exists out, reverseIP (str "2001:db8:0:0:0:0:0:1") = Ok out.
Proof.
  apply (proj1 validateIP_within_isValidIP (str "2001:db8:0:0:0:0:0:1")).
  reflexivity.
Defined.

(** X13: distinct valid IPv4 strings have distinct reversals; two strings
    in a hexadecimal form have the same reversal exactly when they have
    the same expansion. *)
Theorem reverseIP_injective :
  (forall s t,
     isValidIPv4 s = true -> isValidIPv4 t = true ->
     reverseIP s = reverseIP t -> s = t)
  /\ (forall s t groups groups',
        Shape.hexadecimal_form s groups -> Shape.hexadecimal_form t groups' ->
        (reverseIP s = reverseIP t <-> expandIPv6 s = expandIPv6 t)).
Proof.
  split.
  - intros s t Hs Ht H.
    pose proof (IpFacts.reverseIP_twice_v4 s Hs) as H1.
    pose proof (IpFacts.reverseIP_twice_v4 t Ht) as H2.
    rewrite H in H1. congruence.
  - intros s t G G' Hs Ht.
    rewrite (Shape.hexadecimal_form_reverse s G Hs).
    rewrite (Shape.hexadecimal_form_reverse t G' Ht).
    apply Shape.hexadecimal_form_expand in Hs, Ht.
    destruct Hs as (_ & -> & HG), Ht as (_ & -> & HG').
    split; intros H; injection H as H; f_equal; f_equal.
    + apply (f_equal (fun x => split x (str ":"))) in H.
      rewrite !IpFacts.expanded_split in H by now apply IpFacts.expanded_rev.
      rewrite <- (rev_involutive G), <- (rev_involutive G'). now rewrite H.
    + apply (f_equal (fun x => split x (str ":"))) in H.
      rewrite !IpFacts.expanded_split in H by assumption. now subst.
Qed.

Lemma reverseIP_injective_witness :
  reverseIP (str "::1") = reverseIP (str "0:0:0:0:0:0:0:1")
  <-> expandIPv6 (str "::1") = expandIPv6 (str "0:0:0:0:0:0:0:1").
Proof.
  apply (proj2 reverseIP_injective (str "::1") (str "0:0:0:0:0:0:0:1")
           (map str ["0000"; "0000"; "0000"; "0000"; "0000"; "0000"; "0000"; "0001"])
           (map str ["0000"; "0000"; "0000"; "0000"; "0000"; "0000"; "0000"; "0001"])).
  - apply (Shape.hex_compressed [] [str "1"]);
      [repeat constructor | repeat constructor | cbn; lia].
  - apply (Shape.hex_full (map str ["0"; "0"; "0"; "0"; "0"; "0"; "0"; "1"]));
      [reflexivity | repeat constructor].
Defined.
